(** * star-system: the scene, the click-to-focus controller and the render loop

    A shallow embedding of [src/main.js].  The script builds a three.js
    scene graph (a sun, a star field, three planets with their moons),
    registers a click listener that focuses the object returned by a
    ray-cast, an optional "back" listener, a resize listener, and runs
    [tick] once per animation frame.  [main] is the script up to line 121;
    the call [tick()] of line 151 and every later call the host schedules
    are [Frame] events.

    Conventions of the embedding.
    - JavaScript numbers are exact rationals ([Q]); rounding of IEEE doubles
      is not modelled, and equations between computed numbers are stated
      with [==] where the two sides are different fractions of one value.
    - Every [THREE.Object3D] instance lives in a heap [gmap nat Object3D];
      a JavaScript reference to it is its key.  The [planets] array and the
      parent/children links hold such references, so a rotation written
      through [p.orbitGroup] is seen by a later walk of the scene graph.
    - The three.js functions the script calls and the statements turn on
      are embedded as the library defines them: [MathUtils.lerp],
      [Object3D.add], [Object3D.getWorldPosition], and
      [Raycaster.intersectObjects], whose parameter [recursive] defaults to
      [true].
    - What the script takes from its host and from three.js without
      computing it itself is a parameter of the development: [Math.sin] and
      [Math.cos], the geometric ray/mesh test behind [object.raycast], and
      what [controls.update()] does with a pointer gesture. *)

From Stdlib Require Import QArith Qminmax Qpower Lqa.
From stdpp Require Import gmap strings list.

Open Scope Q_scope.

(** ** Vectors and matrices of three.js *)

Record Vector2 := mkVector2 { v2_x : Q; v2_y : Q }.

Record Vector3 := mkVector3 { v_x : Q; v_y : Q; v_z : Q }.

Definition Vector3_zero : Vector3 := mkVector3 0 0 0.

(** [v.add(w)] *)
Definition Vector3_add (v w : Vector3) : Vector3 :=
  mkVector3 (v_x v + v_x w) (v_y v + v_y w) (v_z v + v_z w).

(** The affine part of a [THREE.Matrix4]: three rows of four entries; the
    fourth row of every matrix the script builds is [0 0 0 1]. *)
Record Matrix4 := mkMatrix4 {
  n11 : Q; n12 : Q; n13 : Q; n14 : Q;
  n21 : Q; n22 : Q; n23 : Q; n24 : Q;
  n31 : Q; n32 : Q; n33 : Q; n34 : Q }.

(** [Matrix4.multiplyMatrices(a, b)] on affine matrices. *)
Definition multiplyMatrices (a b : Matrix4) : Matrix4 :=
  mkMatrix4
    (n11 a * n11 b + n12 a * n21 b + n13 a * n31 b)
    (n11 a * n12 b + n12 a * n22 b + n13 a * n32 b)
    (n11 a * n13 b + n12 a * n23 b + n13 a * n33 b)
    (n11 a * n14 b + n12 a * n24 b + n13 a * n34 b + n14 a)
    (n21 a * n11 b + n22 a * n21 b + n23 a * n31 b)
    (n21 a * n12 b + n22 a * n22 b + n23 a * n32 b)
    (n21 a * n13 b + n22 a * n23 b + n23 a * n33 b)
    (n21 a * n14 b + n22 a * n24 b + n23 a * n34 b + n24 a)
    (n31 a * n11 b + n32 a * n21 b + n33 a * n31 b)
    (n31 a * n12 b + n32 a * n22 b + n33 a * n32 b)
    (n31 a * n13 b + n32 a * n23 b + n33 a * n33 b)
    (n31 a * n14 b + n32 a * n24 b + n33 a * n34 b + n34 a).

(** [target.setFromMatrixPosition(m)] *)
Definition setFromMatrixPosition (m : Matrix4) : Vector3 :=
  mkVector3 (n14 m) (n24 m) (n34 m).

(** [THREE.MathUtils.lerp(x, y, t)], which three.js defines as
    [(1 - t) * x + t * y]. *)
Definition lerp (x y t : Q) : Q := (1 - t) * x + t * y.

(** ** The heap of scene-graph objects *)

(** The classes of [Object3D] the script instantiates.  A mesh carries the
    radius of its [SphereGeometry] and the colour of its material. *)
Inductive ObjectKind :=
  | Scene
  | Group
  | Light
  | Points
  | Mesh (radius : Q) (color : N).

(** The fields of an [Object3D] the script reads or writes.  Of the Euler
    rotation only [rotation.y] is ever assigned; [rotation.x], [rotation.z]
    stay 0 and [scale] stays (1,1,1). *)
Record Object3D := mkObject3D {
  kind : ObjectKind;
  parent : option nat;
  children : list nat;
  position : Vector3;
  rotation_y : Q;
  userData_name : option string }.

Definition set_parent (p : option nat) (o : Object3D) : Object3D :=
  mkObject3D (kind o) p (children o) (position o) (rotation_y o) (userData_name o).

Definition set_children (c : list nat) (o : Object3D) : Object3D :=
  mkObject3D (kind o) (parent o) c (position o) (rotation_y o) (userData_name o).

Definition set_position (v : Vector3) (o : Object3D) : Object3D :=
  mkObject3D (kind o) (parent o) (children o) v (rotation_y o) (userData_name o).

Definition set_rotation_y (r : Q) (o : Object3D) : Object3D :=
  mkObject3D (kind o) (parent o) (children o) (position o) r (userData_name o).

Definition set_userData_name (s : string) (o : Object3D) : Object3D :=
  mkObject3D (kind o) (parent o) (children o) (position o) (rotation_y o) (Some s).

(** The heap while the scene is being built: the objects allocated so far
    and the next free reference. *)
Record Heap := mkHeap {
  h_objects : gmap nat Object3D;
  h_next : nat }.

Definition Heap_empty : Heap := mkHeap ∅ 0%nat.

(** [new THREE.Scene()], [new THREE.Group()], [new THREE.Mesh(..)], ...:
    a fresh object without parent or children, at the origin, unrotated. *)
Definition new_Object3D (k : ObjectKind) (h : Heap) : nat * Heap :=
  let id := h_next h in
  (id, mkHeap (<[id := mkObject3D k None [] Vector3_zero 0 None]> (h_objects h)) (S id)).

(** [children.splice(children.indexOf(c), 1)] *)
Fixpoint remove_first (c : nat) (l : list nat) : list nat :=
  match l with
  | [] => []
  | a :: l' => if Nat.eqb a c then l' else a :: remove_first c l'
  end.

(** [object.removeFromParent()] *)
Definition removeFromParent (c : nat) (m : gmap nat Object3D) : gmap nat Object3D :=
  match m !! c with
  | Some o =>
      match parent o with
      | Some p =>
          alter (set_parent None) c
            (alter (fun po => set_children (remove_first c (children po)) po) p m)
      | None => m
      end
  | None => m
  end.

(** [p.add(c)] of [Object3D]: nothing when [c] is [p] itself; otherwise [c]
    leaves its former parent, gets [p] as parent and is pushed onto
    [p.children]. *)
Definition add (p c : nat) (h : Heap) : Heap :=
  if Nat.eqb p c then h
  else
    let m := removeFromParent c (h_objects h) in
    let m := alter (set_parent (Some p)) c m in
    let m := alter (fun po => set_children (children po ++ [c]) po) p m in
    mkHeap m (h_next h).

(** [o.position.x = d] *)
Definition set_position_x (id : nat) (d : Q) (h : Heap) : Heap :=
  mkHeap
    (alter (fun o => set_position (mkVector3 d (v_y (position o)) (v_z (position o))) o)
       id (h_objects h))
    (h_next h).

(** [o.userData = { name }] *)
Definition set_userData (id : nat) (name : string) (h : Heap) : Heap :=
  mkHeap (alter (set_userData_name name) id (h_objects h)) (h_next h).

(** [o.rotation.y += d] *)
Definition rotateY (id : nat) (d : Q) (m : gmap nat Object3D) : gmap nat Object3D :=
  alter (fun o => set_rotation_y (rotation_y o + d) o) id m.

(** ** Planets and moons (lines 54-82) *)

(** An element of a [moonConfigs] array: [{ size, dist, speed }]. *)
Record MoonConfig := mkMoonConfig { cfg_size : Q; cfg_dist : Q; cfg_speed : Q }.

(** What the [map] callback of [createPlanet] returns:
    [{ group: moonOrbit, speed: m.speed }]. *)
Record MoonObj := mkMoonObj { m_group : nat; m_speed : Q }.

(** [planetObj = { orbitGroup, speed, planet, moons }] *)
Record PlanetObj := mkPlanetObj {
  p_orbitGroup : nat;
  p_speed : Q;
  p_planet : nat;
  p_moons : list MoonObj }.

(** The colour [0xdddddd] of every moon. *)
Definition moon_color : N := 14540253.

(** The body of the callback of [moonConfigs.map], lines 67-74. *)
Definition createMoon (planet : nat) (m : MoonConfig) (h : Heap) : MoonObj * Heap :=
  let '(moonOrbit, h) := new_Object3D Group h in
  let h := add planet moonOrbit h in
  let '(moon, h) := new_Object3D (Mesh (cfg_size m) moon_color) h in
  let h := set_position_x moon (cfg_dist m) h in
  let h := add moonOrbit moon h in
  (mkMoonObj moonOrbit (cfg_speed m), h).

(** [moonConfigs.map(m => ...)]: the callback runs on the configurations in
    order, each call allocating in the heap the previous one left. *)
Fixpoint createMoons (planet : nat) (cfgs : list MoonConfig) (h : Heap)
  : list MoonObj * Heap :=
  match cfgs with
  | [] => ([], h)
  | m :: cfgs' =>
      let '(mo, h) := createMoon planet m h in
      let '(mos, h) := createMoons planet cfgs' h in
      (mo :: mos, h)
  end.

(** [createPlanet(size, color, distance, speed, name, moonConfigs)],
    lines 56-78.  The [planets] array is threaded next to the heap. *)
Definition createPlanet (scene : nat) (size : Q) (color : N) (distance speed : Q)
    (name : string) (moonConfigs : list MoonConfig)
    (hp : Heap * list PlanetObj) : PlanetObj * (Heap * list PlanetObj) :=
  let '(h, planets) := hp in
  let '(orbitGroup, h) := new_Object3D Group h in
  let h := add scene orbitGroup h in
  let '(planet, h) := new_Object3D (Mesh size color) h in
  let h := set_position_x planet distance h in
  let h := set_userData planet name h in
  let h := add orbitGroup planet h in
  let '(moons, h) := createMoons planet moonConfigs h in
  let planetObj := mkPlanetObj orbitGroup speed planet moons in
  (planetObj, (h, planets ++ [planetObj])).

(** ** The state of the running page *)

(** The DOM element [#backButton], as far as the script touches it: its
    inline [style.display] and whether a click listener was added to it. *)
Record HTMLElement := mkHTMLElement {
  style_display : string;
  click_listener : bool }.

(** The module-level bindings of [main.js] and the fields of the host and
    library objects they reach. *)
Record State := mkState {
  objects : gmap nat Object3D;
  scene : nat;
  starDust : nat;
  planets : list PlanetObj;
  focusedPlanet : option nat;
  timeScale : Q;
  backButton : option HTMLElement;
  mouse : Vector2;
  camera_position : Vector3;
  camera_aspect : Q;
  camera_projectionAspect : Q;
  controls_target : Vector3;
  renderer_size : Q * Q;
  renderer_pixelRatio : Q;
  composer_size : Q * Q;
  starMaterial_size : Q;
  innerWidth : Q;
  innerHeight : Q }.

(** Field by field: [objects] is the heap of [Object3D] instances; [scene] is
    [const scene]; [starDust] is [const starDust]; [planets] is [const planets],
    filled by [createPlanet]; [focusedPlanet] is [let focusedPlanet]; [None] is
    [null]; [timeScale] is [let timeScale]; [backButton] is [const backButton];
    [None] is [null]; [mouse] is [const mouse]; [camera_position] is
    [camera.position]; [camera_aspect] is [camera.aspect];
    [camera_projectionAspect] is the aspect [camera.projectionMatrix] was last
    computed from; [controls_target] is [controls.target]; [renderer_size] is
    the size last given to [renderer.setSize]; [renderer_pixelRatio] is the
    ratio given to [renderer.setPixelRatio]; [composer_size] is the size last
    given to [composer.setSize]; [starMaterial_size] is [starMaterial.size];
    [innerWidth] is [window.innerWidth]; [innerHeight] is [window.innerHeight].
    *)

Definition set_objects (v : gmap nat Object3D) (st : State) : State :=
  mkState v (scene st) (starDust st) (planets st) (focusedPlanet st) (timeScale st)
    (backButton st) (mouse st) (camera_position st) (camera_aspect st)
    (camera_projectionAspect st) (controls_target st) (renderer_size st)
    (renderer_pixelRatio st) (composer_size st) (starMaterial_size st) (innerWidth st)
    (innerHeight st).

Definition set_focusedPlanet (v : option nat) (st : State) : State :=
  mkState (objects st) (scene st) (starDust st) (planets st) v (timeScale st)
    (backButton st) (mouse st) (camera_position st) (camera_aspect st)
    (camera_projectionAspect st) (controls_target st) (renderer_size st)
    (renderer_pixelRatio st) (composer_size st) (starMaterial_size st) (innerWidth st)
    (innerHeight st).

Definition set_timeScale (v : Q) (st : State) : State :=
  mkState (objects st) (scene st) (starDust st) (planets st) (focusedPlanet st) v
    (backButton st) (mouse st) (camera_position st) (camera_aspect st)
    (camera_projectionAspect st) (controls_target st) (renderer_size st)
    (renderer_pixelRatio st) (composer_size st) (starMaterial_size st) (innerWidth st)
    (innerHeight st).

Definition set_backButton (v : option HTMLElement) (st : State) : State :=
  mkState (objects st) (scene st) (starDust st) (planets st) (focusedPlanet st)
    (timeScale st) v (mouse st) (camera_position st) (camera_aspect st)
    (camera_projectionAspect st) (controls_target st) (renderer_size st)
    (renderer_pixelRatio st) (composer_size st) (starMaterial_size st) (innerWidth st)
    (innerHeight st).

Definition set_mouse (v : Vector2) (st : State) : State :=
  mkState (objects st) (scene st) (starDust st) (planets st) (focusedPlanet st)
    (timeScale st) (backButton st) v (camera_position st) (camera_aspect st)
    (camera_projectionAspect st) (controls_target st) (renderer_size st)
    (renderer_pixelRatio st) (composer_size st) (starMaterial_size st) (innerWidth st)
    (innerHeight st).

Definition set_camera_position (v : Vector3) (st : State) : State :=
  mkState (objects st) (scene st) (starDust st) (planets st) (focusedPlanet st)
    (timeScale st) (backButton st) (mouse st) v (camera_aspect st)
    (camera_projectionAspect st) (controls_target st) (renderer_size st)
    (renderer_pixelRatio st) (composer_size st) (starMaterial_size st) (innerWidth st)
    (innerHeight st).

Definition set_camera_aspect (v : Q) (st : State) : State :=
  mkState (objects st) (scene st) (starDust st) (planets st) (focusedPlanet st)
    (timeScale st) (backButton st) (mouse st) (camera_position st) v
    (camera_projectionAspect st) (controls_target st) (renderer_size st)
    (renderer_pixelRatio st) (composer_size st) (starMaterial_size st) (innerWidth st)
    (innerHeight st).

Definition set_camera_projectionAspect (v : Q) (st : State) : State :=
  mkState (objects st) (scene st) (starDust st) (planets st) (focusedPlanet st)
    (timeScale st) (backButton st) (mouse st) (camera_position st) (camera_aspect st) v
    (controls_target st) (renderer_size st) (renderer_pixelRatio st) (composer_size st)
    (starMaterial_size st) (innerWidth st) (innerHeight st).

Definition set_controls_target (v : Vector3) (st : State) : State :=
  mkState (objects st) (scene st) (starDust st) (planets st) (focusedPlanet st)
    (timeScale st) (backButton st) (mouse st) (camera_position st) (camera_aspect st)
    (camera_projectionAspect st) v (renderer_size st) (renderer_pixelRatio st)
    (composer_size st) (starMaterial_size st) (innerWidth st) (innerHeight st).

Definition set_renderer_size (v : Q * Q) (st : State) : State :=
  mkState (objects st) (scene st) (starDust st) (planets st) (focusedPlanet st)
    (timeScale st) (backButton st) (mouse st) (camera_position st) (camera_aspect st)
    (camera_projectionAspect st) (controls_target st) v (renderer_pixelRatio st)
    (composer_size st) (starMaterial_size st) (innerWidth st) (innerHeight st).

Definition set_composer_size (v : Q * Q) (st : State) : State :=
  mkState (objects st) (scene st) (starDust st) (planets st) (focusedPlanet st)
    (timeScale st) (backButton st) (mouse st) (camera_position st) (camera_aspect st)
    (camera_projectionAspect st) (controls_target st) (renderer_size st)
    (renderer_pixelRatio st) v (starMaterial_size st) (innerWidth st) (innerHeight st).

Definition set_starMaterial_size (v : Q) (st : State) : State :=
  mkState (objects st) (scene st) (starDust st) (planets st) (focusedPlanet st)
    (timeScale st) (backButton st) (mouse st) (camera_position st) (camera_aspect st)
    (camera_projectionAspect st) (controls_target st) (renderer_size st)
    (renderer_pixelRatio st) (composer_size st) v (innerWidth st) (innerHeight st).

Definition set_innerWidth (v : Q) (st : State) : State :=
  mkState (objects st) (scene st) (starDust st) (planets st) (focusedPlanet st)
    (timeScale st) (backButton st) (mouse st) (camera_position st) (camera_aspect st)
    (camera_projectionAspect st) (controls_target st) (renderer_size st)
    (renderer_pixelRatio st) (composer_size st) (starMaterial_size st) v
    (innerHeight st).

Definition set_innerHeight (v : Q) (st : State) : State :=
  mkState (objects st) (scene st) (starDust st) (planets st) (focusedPlanet st)
    (timeScale st) (backButton st) (mouse st) (camera_position st) (camera_aspect st)
    (camera_projectionAspect st) (controls_target st) (renderer_size st)
    (renderer_pixelRatio st) (composer_size st) (starMaterial_size st) (innerWidth st)
    v.

(** What the page finds when the script starts: the window, and the inline
    [style.display] of the element [document.getElementById('backButton')]
    returns, if the document has one. *)
Record Host := mkHost {
  host_innerWidth : Q;
  host_innerHeight : Q;
  host_devicePixelRatio : Q;
  host_backButton : option string }.

(** An entry of the array [raycaster.intersectObjects] returns. *)
Record Intersection := mkIntersection { distance : Q; object : nat }.

(** The comparison of [ascSort], [a.distance - b.distance <= 0]. *)
Definition ascSort (a b : Intersection) : bool := Qle_bool (distance a) (distance b).

(** [intersects.sort(ascSort)]: [Array.prototype.sort] is stable, so among
    entries at one distance the earlier pushed stays first. *)
Fixpoint sort_insert (a : Intersection) (l : list Intersection) : list Intersection :=
  match l with
  | [] => [a]
  | b :: l' => if ascSort a b then a :: l else b :: sort_insert a l'
  end.

Definition sort (l : list Intersection) : list Intersection :=
  foldr sort_insert [] l.

(** ** Inputs the statements are evaluated at *)

(** Rational stand-ins for [Math.sin] and [Math.cos]: their Taylor
    polynomials of degree 3 and 2, exact at 0. *)
Definition sin_taylor (x : Q) : Q := x - x * x * x / 6.
Definition cos_taylor (x : Q) : Q := 1 - x * x / 2.

(** The geometric test for a ray that meets the object [k] alone, at
    distance [d]. *)
Definition ray_meets (k : nat) (d : Q) (st : State) (id : nat) : list Q :=
  if Nat.eqb id k then [d] else [].

(** Seen from the start position (25, 20, 40) of the camera in an 800 x 600
    window, Earth is drawn around the point (594, 347) and its first moon
    around (615, 352), outside the disc of Earth; their front faces are at
    distances of about 45.35 and 45.64. *)
Definition ray_at_Earth : State -> nat -> list Q := ray_meets 11 45.35.
Definition ray_at_moon : State -> nat -> list Q := ray_meets 13 45.64.

(** [controls.update()] with no gesture pending: the camera stays where it
    is and so does the target. *)
Definition no_gesture (input : unit) (pos target : Vector3) : Vector3 * Vector3 :=
  (pos, target).

(** An 800 x 600 window whose document has a hidden back element, and one
    whose document has none. *)
Definition host_with_back : Host := mkHost 800 600 1 (Some "none"%string).
Definition host_without_back : Host := mkHost 800 600 1 None.

(** The entry of [planets] for Earth and the first of its moons. *)
Definition moon_of_Earth : MoonObj := mkMoonObj 12 0.03.
Definition planet_Earth : PlanetObj :=
  mkPlanetObj 10 0.008 11 [moon_of_Earth; mkMoonObj 14 0.02].

(** A sine and a cosine on the rationals with [sin^2 + cos^2 = 1] exactly:
    the rational parametrisation of the circle. *)
Definition sin_rational (x : Q) : Q := 2 * x / (1 + x * x).
Definition cos_rational (x : Q) : Q := (1 - x * x) / (1 + x * x).

(** Stand-ins for [Math.pow] and [Math.random] that keep to [0, 1). *)
Definition pow_linear (u e : Q) : Q := u.
Definition random_half (k : nat) : Q := 0.5.

(** A heap that holds a scene only. *)
Definition heap_with_scene : Heap := snd (new_Object3D Scene Heap_empty).

(** A ray from the start position of the camera toward the origin: it
    meets the sun alone, whose front face is at a distance of about
    49.23. *)
Definition ray_at_sun : State -> nat -> list Q := ray_meets 4 49.23.

(** After 101 frames with the camera left at its start position, Earth's
    first moon passes in front of Earth as the camera sees them: the ray
    through the screen point (577, 288) meets the moon mesh at a distance
    of about 54.78 and, behind it, the Earth mesh at about 55.62. *)
Definition ray_at_Earth_behind_moon (st : State) (id : nat) : list Q :=
  ray_meets 13 54.78 st id ++ ray_meets 11 55.62 st id.

(** A test that looks at the pointer: after the first frame the ray
    through the screen point (594, 347) of an 800 x 600 window meets Earth,
    at a distance of about 45.45; the rays through the other points meet
    nothing. *)
Definition ray_toward_594_347 (st : State) (id : nat) : list Q :=
  if Qeq_bool (v2_x (mouse st)) (594 / 800 * 2 - 1) &&
     Qeq_bool (v2_y (mouse st)) (- (347 / 600) * 2 + 1)
  then ray_meets 11 45.45 st id
  else [].

(** The clock and the gestures of the first [n] frames: 16 ms apart, no
    gesture. *)
Definition first_frames (n : nat) : list (Q * unit) :=
  map (fun k => (inject_Z (Z.of_nat k) * 16, tt)) (seq 0 n).

(** ** Proof steps used throughout *)

(** Case analysis on every [match] of a listener's body. *)
Ltac handler_cases :=
  repeat match goal with
    | |- context [match ?x with _ => _ end] => destruct x eqn:?; simpl
    end; try reflexivity; try (simpl in *; congruence).

(** Membership in a list that is written out. *)
Ltac in_list := simpl; repeat ((left; reflexivity) || right).

(** A fact about the built scene, by evaluation. *)
Ltac by_eval :=
  vm_compute; first [reflexivity | split; [in_list | reflexivity]].

Section Page.

(** *** What the host and three.js supply *)

(** [Math.sin] and [Math.cos]. *)
Variables Math_sin Math_cos : Q -> Q.

(** [Object3D_raycast st id]: the distances of the intersections that
    [object.raycast(raycaster, intersects)] pushes for the mesh or point
    cloud [id], for the ray [raycaster.setFromCamera(mouse, camera)] set in
    state [st].  The test reads the state and changes nothing. *)
Variable Object3D_raycast : State -> nat -> list Q.

(** The pointer gesture [controls.update()] finds pending, and what it
    makes of [camera.position] and [controls.target] (a pan moves both). *)
Variable UserInput : Type.
Variable OrbitControls_update : UserInput -> Vector3 -> Vector3 -> Vector3 * Vector3.

(** *** World transforms *)

(** [object.updateMatrix()]: [matrix.compose(position, quaternion, scale)]
    for the rotation (0, [rotation.y], 0) and the scale (1,1,1). *)
Definition updateMatrix (o : Object3D) : Matrix4 :=
  let c := Math_cos (rotation_y o) in
  let s := Math_sin (rotation_y o) in
  mkMatrix4
    c 0 s (v_x (position o))
    0 1 0 (v_y (position o))
    (- s) 0 c (v_z (position o)).

(** [object.updateWorldMatrix(true, false)]: the parent chain is brought up
    to date first, then [matrixWorld] is [matrix] for a root and
    [parent.matrixWorld * matrix] otherwise.  The recursion of three.js
    follows [parent] links without a bound; here [fuel] bounds it, and
    [None] means the chain is longer than [fuel] or leaves the heap. *)
Fixpoint updateWorldMatrix (fuel : nat) (m : gmap nat Object3D) (id : nat)
  : option Matrix4 :=
  match fuel with
  | O => None
  | S fuel' =>
      match m !! id with
      | None => None
      | Some o =>
          match parent o with
          | None => Some (updateMatrix o)
          | Some p =>
              match updateWorldMatrix fuel' m p with
              | Some pw => Some (multiplyMatrices pw (updateMatrix o))
              | None => None
              end
          end
      end
  end.

(** [object.getWorldPosition(target)]; a chain without cycle is no longer
    than the heap is large. *)
Definition getWorldPosition (m : gmap nat Object3D) (id : nat) : option Vector3 :=
  match updateWorldMatrix (size m) m id with
  | Some mw => Some (setFromMatrixPosition mw)
  | None => None
  end.

(** *** The raycaster *)

(** [object.raycast(raycaster, intersects)]: [Mesh] and [Points] test their
    geometry, the [raycast] of every other [Object3D] is empty. *)
Definition raycast (st : State) (id : nat) (o : Object3D) : list Intersection :=
  match kind o with
  | Mesh _ _ | Points => map (fun d => mkIntersection d id) (Object3D_raycast st id)
  | _ => []
  end.

(** The helper [intersect(object, raycaster, intersects, recursive)] of
    [Raycaster.js]: the object's own intersections are pushed, then, when
    [recursive], those of its children in order, recursively.  (All layers
    are the default ones, and no [raycast] here returns [false].) *)
Fixpoint intersect (fuel : nat) (st : State) (recursive : bool) (id : nat)
  : list Intersection :=
  match fuel with
  | O => []
  | S fuel' =>
      match objects st !! id with
      | None => []
      | Some o =>
          raycast st id o ++
          (if recursive then flat_map (intersect fuel' st true) (children o) else [])
      end
  end.

(** [raycaster.intersectObjects(objects, recursive, intersects)]: every
    listed object is walked, then the intersections are sorted by distance.
    The signature of three.js is [intersectObjects(objects, recursive = true,
    intersects = [])]: a call without second argument walks recursively. *)
Definition intersectObjects (st : State) (objs : list nat) (recursive : bool)
  : list Intersection :=
  sort (flat_map (intersect (size (objects st)) st recursive) objs).

(** *** Start-up: lines 7-121 *)

Definition main (host : Host) : State :=
  let W := host_innerWidth host in
  let H := host_innerHeight host in
  let h := Heap_empty in
  let '(scene, h) := new_Object3D Scene h in
  (* the camera is never added to the scene: it is kept outside the heap *)
  let '(sunLight, h) := new_Object3D Light h in
  let h := add scene sunLight h in
  let '(ambientLight, h) := new_Object3D Light h in
  let h := add scene ambientLight h in
  let '(sunGroup, h) := new_Object3D Group h in
  let h := add scene sunGroup h in
  let '(sunCore, h) := new_Object3D (Mesh 2 0xffffff) h in
  let h := add sunGroup sunCore h in
  let '(starDust, h) := new_Object3D Points h in
  let h := add scene starDust h in
  let hp := (h, []) in
  let '(_, hp) := createPlanet scene 0.4 0xffccaa 8 0.012 "Mercury"
                    [mkMoonConfig 0.08 0.9 0.04] hp in
  let '(_, hp) := createPlanet scene 0.7 0x00aaff 14 0.008 "Earth"
                    [mkMoonConfig 0.12 1.3 0.03; mkMoonConfig 0.08 1.8 0.02] hp in
  let '(_, hp) := createPlanet scene 1.1 0xcc88ff 22 0.005 "Jupiter"
                    [mkMoonConfig 0.15 2.2 0.015] hp in
  let '(h, planets) := hp in
  (* line 26, and lines 115-121: the listener is added only to an element *)
  let backButton :=
    match host_backButton host with
    | Some display => Some (mkHTMLElement display true)
    | None => None
    end in
  mkState (h_objects h) scene starDust planets
    None 1 backButton (mkVector2 0 0)
    (mkVector3 25 20 40) (W / H) (W / H) Vector3_zero
    (W, H) (Qmin (host_devicePixelRatio host) 2) (W, H) 0.08
    W H.

(** *** The click listener of [window]: lines 93-113 *)

(** Lines 94-95. *)
Definition setMouse (clientX clientY : Q) (st : State) : State :=
  let st := set_mouse (mkVector2 (clientX / innerWidth st * 2 - 1) (v2_y (mouse st))) st in
  set_mouse (mkVector2 (v2_x (mouse st)) (- (clientY / innerHeight st) * 2 + 1)) st.

Definition onClick (clientX clientY : Q) (st : State) : State :=
  let st := setMouse clientX clientY st in
  (* line 97 gives one argument, so [recursive] has its default, [true] *)
  let intersects := intersectObjects st (map p_planet (planets st)) true in
  match intersects with
  | i :: _ =>
      let st := set_focusedPlanet (Some (object i)) st in
      let st :=
        match backButton st with
        | Some b => set_backButton (Some (mkHTMLElement "block" (click_listener b))) st
        | None => st
        end in
      match getWorldPosition (objects st) (object i) with
      | Some worldPos =>
          let jumpPos := Vector3_add worldPos (mkVector3 5 3 5) in
          set_camera_position jumpPos st
      | None => st
      end
  | [] => st
  end.

(** *** The click listener of the back element: lines 116-120 *)

Definition onBack (st : State) : State :=
  let st := set_focusedPlanet None st in
  let st :=
    match backButton st with
    | Some b => set_backButton (Some (mkHTMLElement "none" (click_listener b))) st
    | None => st
    end in
  set_controls_target (mkVector3 0 0 0) st.

(** *** The animation loop: lines 124-149 *)

(** Line 126. *)
Definition targetScale (st : State) : Q :=
  match focusedPlanet st with
  | Some _ => 0.1
  | None => 1
  end.

(** The callback of [planets.forEach], lines 133-135, on the heap. *)
Definition tick_planet (timeScale : Q) (m : gmap nat Object3D) (p : PlanetObj)
  : gmap nat Object3D :=
  let m := rotateY (p_orbitGroup p) (p_speed p * timeScale) m in
  let m := rotateY (p_planet p) 0.01 m in
  fold_left (fun m mo => rotateY (m_group mo) (m_speed mo) m) (p_moons p) m.

(** Lines 125-136; [now] is what [Date.now()] returns. *)
Definition tick_animate (now : Q) (st : State) : State :=
  let time := now * 0.001 in
  let st := set_timeScale (lerp (timeScale st) (targetScale st) 0.05) st in
  let st := set_objects (rotateY (starDust st) (0.0001 * timeScale st) (objects st)) st in
  let st := set_starMaterial_size (0.07 + Math_sin (time * 3) * 0.01) st in
  set_objects (fold_left (tick_planet (timeScale st)) (planets st) (objects st)) st.

(** Lines 138-144. *)
Definition tick_follow (st : State) : State :=
  match focusedPlanet st with
  | Some p =>
      match getWorldPosition (objects st) p with
      | Some worldPos => set_controls_target worldPos st
      | None => st
      end
  | None => st
  end.

(** Line 146. *)
Definition controls_update (input : UserInput) (st : State) : State :=
  let '(pos, target) := OrbitControls_update input (camera_position st) (controls_target st) in
  set_controls_target target (set_camera_position pos st).

(** [tick]; [composer.render()] draws the state and leaves it as it is, and
    [requestAnimationFrame(tick)] makes the host deliver the next [Frame]. *)
Definition tick (now : Q) (input : UserInput) (st : State) : State :=
  controls_update input (tick_follow (tick_animate now st)).

(** *** The resize listener: lines 153-158 *)

Definition onResize (st : State) : State :=
  let st := set_camera_aspect (innerWidth st / innerHeight st) st in
  let st := set_camera_projectionAspect (camera_aspect st) st in
  let st := set_renderer_size (innerWidth st, innerHeight st) st in
  set_composer_size (innerWidth st, innerHeight st) st.

(** *** The page as a transition system *)

(** What the host delivers to the script: a run of one listener or of
    [tick].  A DOM click on the back element is [BackClick]; as the script
    does not stop its propagation, the host then delivers it to [window]
    too, as a [Click] at the same point. *)
Inductive Event :=
  | Click (clientX clientY : Q)
  | BackClick
  | Frame (now : Q) (input : UserInput)
  | Resize (W H : Q).

Definition step (st : State) (ev : Event) : State :=
  match ev with
  | Click clientX clientY => onClick clientX clientY st
  | BackClick =>
      match backButton st with
      | Some b => if click_listener b then onBack st else st
      | None => st
      end
  | Frame now input => tick now input st
  | Resize W H => onResize (set_innerHeight H (set_innerWidth W st))
  end.

Definition run (st : State) (evs : list Event) : State := fold_left step evs st.

(** ** Notions the statements are written with *)

(** An object with its rotation forgotten: what never changes once the
    scene is built. *)
Definition skeleton (o : Object3D) : Object3D := set_rotation_y 0 o.

(** Two heaps hold the same scene graph, up to the rotations. *)
Definition same_graph (m m' : gmap nat Object3D) : Prop :=
  skeleton <$> m = skeleton <$> m'.

Definition children_of (m : gmap nat Object3D) (id : nat) : list nat :=
  match m !! id with
  | Some o => children o
  | None => []
  end.

Definition parent_of (m : gmap nat Object3D) (id : nat) : option nat :=
  match m !! id with
  | Some o => parent o
  | None => None
  end.

Definition kind_of (m : gmap nat Object3D) (id : nat) : option ObjectKind :=
  kind <$> m !! id.

Definition rotation_of (m : gmap nat Object3D) (id : nat) : option Q :=
  rotation_y <$> m !! id.

Definition name_of (m : gmap nat Object3D) (id : nat) : option string :=
  match m !! id with
  | Some o => userData_name o
  | None => None
  end.

Definition is_Mesh (m : gmap nat Object3D) (id : nat) : bool :=
  match kind_of m id with
  | Some (Mesh _ _) => true
  | _ => false
  end.

Definition is_Group (m : gmap nat Object3D) (id : nat) : bool :=
  match kind_of m id with
  | Some Group => true
  | _ => false
  end.

(** [a] owns [b] in the scene graph: [b] is in [a.children] and [b.parent]
    is [a]. *)
Definition owns (m : gmap nat Object3D) (a b : nat) : Prop :=
  In b (children_of m a) /\ parent_of m b = Some a.

(** The objects whose geometry [intersect] tests, in the order of the walk. *)
Fixpoint tested (fuel : nat) (m : gmap nat Object3D) (recursive : bool) (id : nat)
  : list nat :=
  match fuel with
  | O => []
  | S fuel' =>
      match m !! id with
      | None => []
      | Some o =>
          match kind o with
          | Mesh _ _ | Points => [id]
          | _ => []
          end ++
          (if recursive then flat_map (tested fuel' m true) (children o) else [])
      end
  end.

(** The [parent] links from [id] reach a root within [fuel] steps. *)
Fixpoint rooted (fuel : nat) (m : gmap nat Object3D) (id : nat) : bool :=
  match fuel with
  | O => false
  | S fuel' =>
      match m !! id with
      | None => false
      | Some o =>
          match parent o with
          | None => true
          | Some p => rooted fuel' m p
          end
      end
  end.

(** Every entry is at most as far as all entries after it. *)
Fixpoint ascending (l : list Intersection) : Prop :=
  match l with
  | [] => True
  | a :: l' => (forall x, In x l' -> distance a <= distance x) /\ ascending l'
  end.

(** The scene graph [main] builds; it does not depend on the host. *)
Definition scene_graph : gmap nat Object3D :=
  Eval vm_compute in objects (main (mkHost 1 1 1 None)).

(** The [planets] array [main] fills; it does not depend on the host either. *)
Definition planets_built : list PlanetObj :=
  Eval vm_compute in planets (main (mkHost 1 1 1 None)).

(** The planet meshes: what the click listener hands to the raycaster. *)
Definition planet_meshes (st : State) : list nat := map p_planet (planets st).

(** The meshes of the moons of the planets. *)
Definition moon_meshes (st : State) : list nat :=
  flat_map (fun p => flat_map (fun mo => children_of (objects st) (m_group mo)) (p_moons p))
    (planets st).

(** The number of [Frame] events of a run. *)
Fixpoint frames (evs : list Event) : nat :=
  match evs with
  | [] => 0
  | Frame _ _ :: evs' => S (frames evs')
  | _ :: evs' => frames evs'
  end.

Definition is_Frame (ev : Event) : bool :=
  match ev with
  | Frame _ _ => true
  | _ => false
  end.

(** What every state of a run satisfies. *)
Record Inv (st : State) : Prop := mkInv {
  inv_scene : scene st = 0%nat;
  inv_starDust : starDust st = 5%nat;
  inv_planets : planets st = planets_built;
  inv_graph : same_graph (objects st) scene_graph;
  inv_focus : forall p, focusedPlanet st = Some p ->
              In p (planet_meshes st ++ moon_meshes st);
  inv_timeScale : 0.1 <= timeScale st <= 1;
  inv_listener : forall b, backButton st = Some b -> click_listener b = true }.

(** ** Further notions *)

Definition position_of (m : gmap nat Object3D) (id : nat) : option Vector3 :=
  position <$> m !! id.

(** A heap whose references at and above the next free one are unused. *)
Definition wf_heap (h : Heap) : Prop :=
  forall k, (h_next h <= k)%nat -> h_objects h !! k = None.

(** [children.push(c)] *)
Definition push_child (c : nat) (o : Object3D) : Object3D :=
  set_children (children o ++ [c]) o.

(** What the resize listener keeps in step with the window. *)
Definition viewport (st : State) : Q * Q * (Q * Q) * Q * (Q * Q) * Q * Q :=
  (camera_aspect st, camera_projectionAspect st, renderer_size st,
   renderer_pixelRatio st, composer_size st, innerWidth st, innerHeight st).

(** A run of frames only, one per entry of [l]. *)
Definition frames_of (l : list (Q * UserInput)) : list Event :=
  map (fun f => Frame (fst f) (snd f)) l.

(** A DOM click on the back element, at the point (x, y) of the window: the
    listener of the element runs and then, as lines 116-120 do not stop the
    propagation of the event, the click listener of [window]. *)
Definition click_on_back (x y : Q) : list Event := [BackClick; Click x y].

(** *** The star field: lines 40-48 *)

Section StarField.

(** [Math.PI], [Math.acos] and [Math.pow]; [Math_random k] is what the call
    number [k] of [Math.random()] returns, counting from 0 (the loop below
    is the only caller). *)
Variable Math_PI : Q.
Variable Math_acos : Q -> Q.
Variable Math_pow : Q -> Q -> Q.
Variable Math_random : nat -> Q.

Definition starCount : nat := (15 * 1000)%nat.

(** The body of the loop, lines 44-47, for the index [i] when [calls] calls
    of [Math.random()] have been made.  [starPositions] is a typed array: a
    write outside its range writes nothing. *)
Definition star_body (i calls : nat) (starPositions : list Q) : nat * list Q :=
  let theta := 2 * Math_PI * Math_random calls in
  let phi := Math_acos (2 * Math_random (S calls) - 1) in
  let radius := 100 * Math_pow (Math_random (S (S calls))) 0.9 in
  let a := <[(i * 3)%nat := radius * Math_sin phi * Math_cos theta]> starPositions in
  let a := <[(i * 3 + 1)%nat := radius * Math_sin phi * Math_sin theta]> a in
  let a := <[(i * 3 + 2)%nat := radius * Math_cos phi]> a in
  (S (S (S calls)), a).

(** [for (let i = ...; i < count; i++)] with [n] iterations left. *)
Fixpoint star_loop (n i calls : nat) (a : list Q) : nat * list Q :=
  match n with
  | O => (calls, a)
  | S n' => let '(calls, a) := star_body i calls a in star_loop n' (S i) calls a
  end.

(** Lines 41-48 for a count of stars: the array [new Float32Array(count * 3)]
    after the loop, and the number of calls of [Math.random()] made. *)
Definition fill_starPositions (count : nat) : nat * list Q :=
  star_loop count 0 0 (replicate (count * 3) 0).

Definition starPositions : list Q := snd (fill_starPositions starCount).

(** The angles and the radius drawn for the star [j]. *)
Definition star_theta (j : nat) : Q := 2 * Math_PI * Math_random (3 * j).
Definition star_phi (j : nat) : Q := Math_acos (2 * Math_random (3 * j + 1) - 1).
Definition star_radius (j : nat) : Q := 100 * Math_pow (Math_random (3 * j + 2)) 0.9.

End StarField.

(** ** The time-scale recurrence *)

Lemma lerp_step (x y : Q) : lerp x y 0.05 == x + (y - x) * 0.05.
Proof. unfold lerp. ring. Qed.

Lemma lerp_bounds (x y : Q) :
  0.1 <= x <= 1 -> 0.1 <= y <= 1 -> 0.1 <= lerp x y 0.05 <= 1.
Proof. unfold lerp. intros Hx Hy. lra. Qed.

Lemma targetScale_bounds (st : State) : 0.1 <= targetScale st <= 1.
Proof. unfold targetScale. destruct (focusedPlanet st); lra. Qed.

(** ** What each listener leaves alone *)

Lemma onClick_objects x y st : objects (onClick x y st) = objects st.
Proof. unfold onClick. simpl. handler_cases. Qed.

Lemma onClick_planets x y st : planets (onClick x y st) = planets st.
Proof. unfold onClick. simpl. handler_cases. Qed.

Lemma onClick_timeScale x y st : timeScale (onClick x y st) = timeScale st.
Proof. unfold onClick. simpl. handler_cases. Qed.

Lemma tick_timeScale now input st :
  timeScale (tick now input st) = lerp (timeScale st) (targetScale st) 0.05.
Proof.
  unfold tick, controls_update, tick_follow, tick_animate. simpl. handler_cases.
Qed.

Lemma tick_focusedPlanet now input st :
  focusedPlanet (tick now input st) = focusedPlanet st.
Proof.
  unfold tick, controls_update, tick_follow, tick_animate. simpl. handler_cases.
Qed.

(** ** The scene graph up to rotations *)

Lemma skeleton_fields (o o' : Object3D) :
  skeleton o = skeleton o' ->
  kind o = kind o' /\ parent o = parent o' /\ children o = children o' /\
  position o = position o' /\ userData_name o = userData_name o'.
Proof. unfold skeleton, set_rotation_y. intros H. injection H. auto. Qed.

Lemma same_graph_refl m : same_graph m m.
Proof. reflexivity. Qed.

Lemma same_graph_trans m1 m2 m3 :
  same_graph m1 m2 -> same_graph m2 m3 -> same_graph m1 m3.
Proof. unfold same_graph. congruence. Qed.

Lemma same_graph_lookup m m' id :
  same_graph m m' -> skeleton <$> (m !! id) = skeleton <$> (m' !! id).
Proof. intros H. rewrite <- !lookup_fmap. unfold same_graph in H. by rewrite H. Qed.

(** Corresponding objects of two heaps with the same graph. *)
Lemma same_graph_Some m m' id o :
  same_graph m m' -> m !! id = Some o ->
  exists o', m' !! id = Some o' /\ skeleton o = skeleton o'.
Proof.
  intros H Ho. pose proof (same_graph_lookup m m' id H) as E.
  rewrite Ho in E. destruct (m' !! id) as [o'|]; simpl in E; [|discriminate].
  exists o'. split; [reflexivity|congruence].
Qed.

Lemma same_graph_None m m' id :
  same_graph m m' -> m !! id = None -> m' !! id = None.
Proof.
  intros H Ho. pose proof (same_graph_lookup m m' id H) as E.
  rewrite Ho in E. destruct (m' !! id); [discriminate|reflexivity].
Qed.

Lemma same_graph_size m m' : same_graph m m' -> size m = size m'.
Proof.
  intros H. rewrite <- (map_size_fmap skeleton m), <- (map_size_fmap skeleton m').
  unfold same_graph in H. by rewrite H.
Qed.

Lemma same_graph_rotateY id d m : same_graph (rotateY id d m) m.
Proof.
  unfold same_graph, rotateY. apply map_eq. intros k.
  rewrite !lookup_fmap, lookup_alter.
  case_decide as E; [subst k|reflexivity].
  destruct (m !! id); reflexivity.
Qed.

Lemma same_graph_children_of m m' id :
  same_graph m m' -> children_of m id = children_of m' id.
Proof.
  intros H. unfold children_of. destruct (m !! id) as [o|] eqn:E.
  - destruct (same_graph_Some _ _ _ _ H E) as (o' & -> & Hs).
    apply skeleton_fields in Hs. tauto.
  - by rewrite (same_graph_None _ _ _ H E).
Qed.

Lemma same_graph_parent_of m m' id :
  same_graph m m' -> parent_of m id = parent_of m' id.
Proof.
  intros H. unfold parent_of. destruct (m !! id) as [o|] eqn:E.
  - destruct (same_graph_Some _ _ _ _ H E) as (o' & -> & Hs).
    apply skeleton_fields in Hs. tauto.
  - by rewrite (same_graph_None _ _ _ H E).
Qed.

Lemma same_graph_kind_of m m' id :
  same_graph m m' -> kind_of m id = kind_of m' id.
Proof.
  intros H. unfold kind_of. destruct (m !! id) as [o|] eqn:E.
  - destruct (same_graph_Some _ _ _ _ H E) as (o' & -> & Hs).
    apply skeleton_fields in Hs. simpl. f_equal. tauto.
  - by rewrite (same_graph_None _ _ _ H E).
Qed.

Lemma same_graph_name_of m m' id :
  same_graph m m' -> name_of m id = name_of m' id.
Proof.
  intros H. unfold name_of. destruct (m !! id) as [o|] eqn:E.
  - destruct (same_graph_Some _ _ _ _ H E) as (o' & -> & Hs).
    apply skeleton_fields in Hs. tauto.
  - by rewrite (same_graph_None _ _ _ H E).
Qed.

Lemma same_graph_tested fuel m m' recursive id :
  same_graph m m' -> tested fuel m recursive id = tested fuel m' recursive id.
Proof.
  intros H. revert recursive id.
  induction fuel as [|fuel IH]; intros recursive id; simpl; [reflexivity|].
  destruct (m !! id) as [o|] eqn:E.
  - destruct (same_graph_Some _ _ _ _ H E) as (o' & -> & Hs).
    apply skeleton_fields in Hs. destruct Hs as (-> & _ & -> & _).
    f_equal. destruct recursive; [|reflexivity].
    apply flat_map_ext. intros a. apply IH.
  - by rewrite (same_graph_None _ _ _ H E).
Qed.

Lemma same_graph_rooted fuel m m' id :
  same_graph m m' -> rooted fuel m id = rooted fuel m' id.
Proof.
  intros H. revert id.
  induction fuel as [|fuel IH]; intros id; simpl; [reflexivity|].
  destruct (m !! id) as [o|] eqn:E.
  - destruct (same_graph_Some _ _ _ _ H E) as (o' & -> & Hs).
    apply skeleton_fields in Hs. destruct Hs as (_ & <- & _).
    destruct (parent o); auto.
  - by rewrite (same_graph_None _ _ _ H E).
Qed.

(** A world matrix exists for every object whose parent chain ends. *)
Lemma rooted_updateWorldMatrix fuel m id :
  rooted fuel m id = true -> is_Some (updateWorldMatrix fuel m id).
Proof.
  revert id. induction fuel as [|fuel IH]; intros id; simpl; [discriminate|].
  destruct (m !! id) as [o|]; [|discriminate].
  destruct (parent o) as [p|]; [|eauto].
  intros Hp. destruct (IH p Hp) as [pw ->]. eauto.
Qed.

(** ** Sorting the intersections *)

Lemma in_sort_insert a l x : In x (sort_insert a l) <-> x = a \/ In x l.
Proof.
  induction l as [|b l IH]; simpl.
  - intuition.
  - destruct (ascSort a b); simpl; [intuition|]. rewrite IH. intuition.
Qed.

Lemma in_sort l x : In x (sort l) <-> In x l.
Proof.
  induction l as [|a l IH]; simpl; [tauto|].
  rewrite in_sort_insert, IH. intuition.
Qed.

Lemma ascending_sort_insert a l : ascending l -> ascending (sort_insert a l).
Proof.
  induction l as [|b l IH]; simpl; [intuition|].
  intros [Hb Hl]. unfold ascSort. destruct (Qle_bool (distance a) (distance b)) eqn:E.
  - apply Qle_bool_iff in E. simpl. repeat split; auto.
    intros x [<-|Hx]; [assumption|]. specialize (Hb x Hx). lra.
  - assert (distance b <= distance a) as Hba.
    { apply Qlt_le_weak, Qnot_le_lt. intros Hle. apply Qle_bool_iff in Hle. congruence. }
    simpl. split; [|auto].
    intros x Hx. apply in_sort_insert in Hx. destruct Hx as [->|Hx]; auto.
Qed.

Lemma ascending_sort l : ascending (sort l).
Proof.
  induction l as [|a l IH]; simpl; [exact I|]. by apply ascending_sort_insert.
Qed.

(** The first entry of the sorted array is one of the nearest. *)
Lemma sort_head_nearest l a l' :
  sort l = a :: l' -> In a l /\ forall x, In x l -> distance a <= distance x.
Proof.
  intros E. split.
  - apply in_sort. rewrite E. by left.
  - intros x Hx. apply in_sort in Hx. rewrite E in Hx.
    pose proof (ascending_sort l) as Ha. rewrite E in Ha. destruct Ha as [Ha _].
    destruct Hx as [<-|Hx]; [lra|auto].
Qed.

Lemma sort_nil l : sort l = [] -> l = [].
Proof.
  destruct l as [|a l]; [reflexivity|]. intros E.
  assert (In a (sort (a :: l))) as H by (apply in_sort; by left).
  rewrite E in H. destruct H.
Qed.

(** ** The walk of the raycaster *)

Lemma intersect_tested fuel st recursive id :
  intersect fuel st recursive id =
  flat_map (fun k => map (fun d => mkIntersection d k) (Object3D_raycast st k))
    (tested fuel (objects st) recursive id).
Proof.
  revert recursive id.
  induction fuel as [|fuel IH]; intros recursive id; simpl; [reflexivity|].
  destruct (objects st !! id) as [o|]; [|reflexivity].
  rewrite flat_map_app. f_equal.
  - unfold raycast. destruct (kind o); simpl; rewrite ?app_nil_r; reflexivity.
  - destruct recursive; [|reflexivity].
    induction (children o) as [|c l IHl]; simpl; [reflexivity|].
    rewrite flat_map_app, IH, IHl. reflexivity.
Qed.

Lemma intersectObjects_tested st objs recursive :
  intersectObjects st objs recursive =
  sort (flat_map (fun k => map (fun d => mkIntersection d k) (Object3D_raycast st k))
          (flat_map (tested (size (objects st)) (objects st) recursive) objs)).
Proof.
  unfold intersectObjects. f_equal.
  induction objs as [|a l IH]; simpl; [reflexivity|].
  rewrite flat_map_app, intersect_tested, IH. reflexivity.
Qed.

(** An entry of the result is an intersection the geometric test reported
    for a tested object. *)
Lemma in_intersectObjects st objs recursive i :
  In i (intersectObjects st objs recursive) <->
  In (object i) (flat_map (tested (size (objects st)) (objects st) recursive) objs) /\
  In (distance i) (Object3D_raycast st (object i)).
Proof.
  rewrite intersectObjects_tested, in_sort, in_flat_map. split.
  - intros (k & Hk & Hi). apply in_map_iff in Hi. destruct Hi as (d & <- & Hd). auto.
  - intros [Hk Hd]. exists (object i). split; [assumption|].
    apply in_map_iff. exists (distance i). split; [by destruct i|assumption].
Qed.

(** ** The built scene *)

Lemma main_objects host : objects (main host) = scene_graph.
Proof. vm_compute. reflexivity. Qed.

Lemma main_planets host : planets (main host) = planets_built.
Proof. vm_compute. reflexivity. Qed.


Lemma main_scene host : scene (main host) = 0%nat.
Proof. vm_compute. reflexivity. Qed.

Lemma main_starDust host : starDust (main host) = 5%nat.
Proof. vm_compute. reflexivity. Qed.

Lemma main_focusedPlanet host : focusedPlanet (main host) = None.
Proof. vm_compute. reflexivity. Qed.

Lemma main_timeScale host : timeScale (main host) = 1.
Proof. vm_compute. reflexivity. Qed.

Lemma main_backButton host :
  backButton (main host) =
  match host_backButton host with
  | Some display => Some (mkHTMLElement display true)
  | None => None
  end.
Proof. destruct host as [W H r [display|]]; vm_compute; reflexivity. Qed.

Lemma tested_built :
  flat_map (tested (size scene_graph) scene_graph true)
    (map p_planet planets_built) =
  [7; 9; 11; 13; 15; 17; 19]%nat.
Proof. vm_compute. reflexivity. Qed.

Section Invariant.

Variable st : State.
Hypothesis HInv : Inv st.

Lemma Inv_tested :
  flat_map (tested (size (objects st)) (objects st) true) (planet_meshes st) =
  [7; 9; 11; 13; 15; 17; 19]%nat.
Proof.
  destruct HInv. unfold planet_meshes. rewrite inv_planets0.
  rewrite (same_graph_size _ _ inv_graph0).
  rewrite <- tested_built. apply flat_map_ext. intros a.
  by apply same_graph_tested.
Qed.

Lemma Inv_planet_meshes : planet_meshes st = [7; 11; 17]%nat.
Proof. destruct HInv. unfold planet_meshes. rewrite inv_planets0. reflexivity. Qed.

Lemma Inv_moon_meshes : moon_meshes st = [9; 13; 15; 19]%nat.
Proof.
  destruct HInv. unfold moon_meshes. rewrite inv_planets0.
  simpl. rewrite !(same_graph_children_of _ _ _ inv_graph0). reflexivity.
Qed.

(** What the raycaster tests is a planet mesh or a moon mesh. *)
Lemma Inv_tested_In p :
  In p (flat_map (tested (size (objects st)) (objects st) true) (planet_meshes st)) <->
  In p (planet_meshes st ++ moon_meshes st).
Proof.
  rewrite Inv_tested, Inv_planet_meshes, Inv_moon_meshes. simpl.
  split; intros H; repeat (destruct H as [<-|H]; [in_list|]); destruct H.
Qed.

(** Every object the raycaster can return has a world position. *)
Lemma Inv_getWorldPosition p :
  In p (planet_meshes st ++ moon_meshes st) ->
  exists worldPos, getWorldPosition (objects st) p = Some worldPos.
Proof.
  rewrite Inv_planet_meshes, Inv_moon_meshes. intros Hp.
  destruct HInv. unfold getWorldPosition.
  assert (is_Some (updateWorldMatrix (size (objects st)) (objects st) p)) as [mw ->];
    [|eauto].
  apply rooted_updateWorldMatrix.
  rewrite (same_graph_rooted _ _ _ _ inv_graph0), (same_graph_size _ _ inv_graph0).
  simpl in Hp.
  repeat (destruct Hp as [<-|Hp]; [vm_compute; reflexivity|]). destruct Hp.
Qed.

End Invariant.

(** ** The invariant of the page *)

Lemma same_meshes st st' :
  planets st' = planets st -> same_graph (objects st') (objects st) ->
  planet_meshes st' ++ moon_meshes st' = planet_meshes st ++ moon_meshes st.
Proof.
  intros Hp Hg. unfold planet_meshes, moon_meshes. rewrite Hp. f_equal.
  apply flat_map_ext. intros p. apply flat_map_ext. intros mo.
  by apply same_graph_children_of.
Qed.

Lemma same_graph_tick_planet ts m p : same_graph (tick_planet ts m p) m.
Proof.
  unfold tick_planet.
  assert (forall l m0, same_graph
            (fold_left (fun m mo => rotateY (m_group mo) (m_speed mo) m) l m0) m0) as Hl.
  { induction l as [|mo l IH]; intros m0; simpl; [apply same_graph_refl|].
    eapply same_graph_trans; [apply IH|apply same_graph_rotateY]. }
  eapply same_graph_trans; [apply Hl|].
  eapply same_graph_trans; apply same_graph_rotateY.
Qed.

Lemma same_graph_forEach ts l m : same_graph (fold_left (tick_planet ts) l m) m.
Proof.
  revert m. induction l as [|p l IH]; intros m; simpl; [apply same_graph_refl|].
  eapply same_graph_trans; [apply IH|apply same_graph_tick_planet].
Qed.

Lemma tick_objects now input st :
  objects (tick now input st) =
  fold_left (tick_planet (timeScale (tick now input st))) (planets st)
    (rotateY (starDust st) (0.0001 * timeScale (tick now input st)) (objects st)).
Proof.
  rewrite tick_timeScale.
  unfold tick, controls_update, tick_follow, tick_animate. simpl. handler_cases.
Qed.

Lemma tick_same_graph now input st :
  same_graph (objects (tick now input st)) (objects st).
Proof.
  rewrite tick_objects.
  eapply same_graph_trans; [apply same_graph_forEach|apply same_graph_rotateY].
Qed.

Lemma tick_planets now input st : planets (tick now input st) = planets st.
Proof.
  unfold tick, controls_update, tick_follow, tick_animate. simpl. handler_cases.
Qed.

Lemma tick_scene now input st : scene (tick now input st) = scene st.
Proof.
  unfold tick, controls_update, tick_follow, tick_animate. simpl. handler_cases.
Qed.

Lemma tick_starDust now input st : starDust (tick now input st) = starDust st.
Proof.
  unfold tick, controls_update, tick_follow, tick_animate. simpl. handler_cases.
Qed.

Lemma tick_backButton now input st : backButton (tick now input st) = backButton st.
Proof.
  unfold tick, controls_update, tick_follow, tick_animate. simpl. handler_cases.
Qed.

Lemma onClick_scene x y st : scene (onClick x y st) = scene st.
Proof. unfold onClick. simpl. handler_cases. Qed.

Lemma onClick_starDust x y st : starDust (onClick x y st) = starDust st.
Proof. unfold onClick. simpl. handler_cases. Qed.

(** What a click makes of the selection: the object of the first entry of
    the sorted intersections, or what it was when there is none. *)
Lemma onClick_focusedPlanet x y st :
  focusedPlanet (onClick x y st) =
  match intersectObjects (setMouse x y st) (planet_meshes st) true with
  | i :: _ => Some (object i)
  | [] => focusedPlanet st
  end.
Proof. unfold onClick, planet_meshes. simpl. handler_cases. Qed.

Lemma onClick_backButton x y st :
  backButton (onClick x y st) =
  match intersectObjects (setMouse x y st) (planet_meshes st) true, backButton st with
  | _ :: _, Some b => Some (mkHTMLElement "block" (click_listener b))
  | _, _ => backButton st
  end.
Proof. unfold onClick, planet_meshes. simpl. handler_cases. Qed.

Lemma Inv_main host : Inv (main host).
Proof.
  split.
  - apply main_scene.
  - apply main_starDust.
  - apply main_planets.
  - rewrite main_objects. apply same_graph_refl.
  - intros p. rewrite main_focusedPlanet. intros [=].
  - rewrite main_timeScale. lra.
  - intros b. rewrite main_backButton.
    destruct (host_backButton host); intros [= <-]; reflexivity.
Qed.

Lemma Inv_onClick x y st : Inv st -> Inv (onClick x y st).
Proof.
  intros H. pose proof H as [Hs Hd Hp Hg Hf Ht Hl]. split.
  - by rewrite onClick_scene.
  - by rewrite onClick_starDust.
  - by rewrite onClick_planets.
  - by rewrite onClick_objects.
  - intros p. rewrite onClick_focusedPlanet.
    rewrite (same_meshes st (onClick x y st));
      [|apply onClick_planets|rewrite onClick_objects; apply same_graph_refl].
    destruct (intersectObjects _ _ _) as [|i l] eqn:E; [apply Hf|].
    intros [= <-].
    assert (In i (intersectObjects (setMouse x y st) (planet_meshes st) true)) as Hi
      by (rewrite E; by left).
    apply in_intersectObjects in Hi. destruct Hi as [Hi _].
    by apply (Inv_tested_In st H).
  - by rewrite onClick_timeScale.
  - intros b. rewrite onClick_backButton.
    destruct (intersectObjects _ _ _); [apply Hl|].
    destruct (backButton st) as [b0|] eqn:Eb; [|discriminate].
    intros [= <-]. simpl. by apply Hl.
Qed.

Lemma Inv_onBack st : Inv st -> Inv (onBack st).
Proof.
  intros [Hs Hd Hp Hg Hf Ht Hl]. unfold onBack. simpl.
  destruct (backButton st) as [b|] eqn:Eb; split; simpl; try assumption.
  - intros p [=].
  - intros b0 [= <-]. simpl. by apply Hl.
  - intros p [=].
  - rewrite Eb. intros b0 [=].
Qed.

Lemma Inv_tick now input st : Inv st -> Inv (tick now input st).
Proof.
  intros [Hs Hd Hp Hg Hf Ht Hl]. split.
  - by rewrite tick_scene.
  - by rewrite tick_starDust.
  - by rewrite tick_planets.
  - eapply same_graph_trans; [apply tick_same_graph|assumption].
  - intros p. rewrite tick_focusedPlanet.
    rewrite (same_meshes st (tick now input st));
      [apply Hf|apply tick_planets|apply tick_same_graph].
  - rewrite tick_timeScale. apply lerp_bounds; [assumption|apply targetScale_bounds].
  - rewrite tick_backButton. assumption.
Qed.

Lemma Inv_onResize W H st :
  Inv st -> Inv (onResize (set_innerHeight H (set_innerWidth W st))).
Proof. intros [Hs Hd Hp Hg Hf Ht Hl]. split; assumption. Qed.

Lemma Inv_step st ev : Inv st -> Inv (step st ev).
Proof.
  intros H. destruct ev as [x y| |now input|W Hh]; simpl.
  - by apply Inv_onClick.
  - destruct (backButton st) as [b|]; [|assumption].
    destruct (click_listener b); [by apply Inv_onBack|assumption].
  - by apply Inv_tick.
  - by apply Inv_onResize.
Qed.

Lemma Inv_run st evs : Inv st -> Inv (run st evs).
Proof.
  revert st. induction evs as [|ev evs IH]; intros st H; simpl; [assumption|].
  apply IH. by apply Inv_step.
Qed.

(** Every state the page reaches satisfies the invariant. *)
Lemma Inv_reachable host evs : Inv (run (main host) evs).
Proof. apply Inv_run, Inv_main. Qed.

Lemma run_snoc st evs ev : run st (evs ++ [ev]) = step (run st evs) ev.
Proof. unfold run. by rewrite fold_left_app. Qed.

Lemma run_app st evs evs' : run st (evs ++ evs') = run (run st evs) evs'.
Proof. unfold run. apply fold_left_app. Qed.

Lemma onBack_timeScale st : timeScale (onBack st) = timeScale st.
Proof. unfold onBack. simpl. handler_cases. Qed.

Lemma step_BackClick_timeScale st : timeScale (step st BackClick) = timeScale st.
Proof.
  simpl. destruct (backButton st) as [b|]; [|reflexivity].
  destruct (click_listener b); [apply onBack_timeScale|reflexivity].
Qed.

(** ** The time scale *)

(** C1.  In every frame the time scale moves from its value [timeScale st]
    to [timeScale st + (target - timeScale st) * 0.05], where [target] is
    0.1 when a planet is focused and 1.0 otherwise; no other event touches
    it; it starts at 1.0, and in every state the page reaches it lies in
    [0.1, 1.0]. *)
Theorem timeScale_recurrence_and_range :
  (forall st now input,
     let target := match focusedPlanet st with Some _ => 0.1 | None => 1 end in
     timeScale (tick now input st) == timeScale st + (target - timeScale st) * 0.05) /\
  (forall st x y W H,
     timeScale (step st (Click x y)) = timeScale st /\
     timeScale (step st BackClick) = timeScale st /\
     timeScale (step st (Resize W H)) = timeScale st) /\
  (forall host, timeScale (main host) = 1) /\
  (forall host evs, 0.1 <= timeScale (run (main host) evs) <= 1).
Proof.
  split; [|split; [|split]].
  - intros st now input target. rewrite tick_timeScale. apply lerp_step.
  - intros st x y W H. split; [apply onClick_timeScale|].
    split; [apply step_BackClick_timeScale|reflexivity].
  - intros host. apply main_timeScale.
  - intros host evs. apply (inv_timeScale _ (Inv_reachable host evs)).
Qed.

(** C6, as the code has it.  In a frame the distance of the time scale to
    its target shrinks by the factor 0.95, and the target is 0.1 (not 0)
    while a planet is focused and 1 while none is. *)
Theorem timeScale_smoothed_toward_target st now input :
  let target := match focusedPlanet st with Some _ => 0.1 | None => 1 end in
  timeScale (tick now input st) == lerp (timeScale st) target 0.05 /\
  timeScale (tick now input st) - target == 0.95 * (timeScale st - target).
Proof.
  intros target. rewrite tick_timeScale. unfold lerp, targetScale. fold target.
  split; [reflexivity|ring].
Qed.

(** ** The resize listener *)

(** C8.  After a resize event to (W, H) the aspect of the camera, and the
    aspect its projection was computed from, is W / H, and the sizes given
    to the renderer and to the composer are (W, H); running the listener a
    second time changes nothing. *)
Theorem resize_sets_aspect_and_sizes st W H :
  let st' := step st (Resize W H) in
  camera_aspect st' = W / H /\
  camera_projectionAspect st' = W / H /\
  renderer_size st' = (W, H) /\
  composer_size st' = (W, H) /\
  onResize st' = st' /\
  step st' (Resize W H) = st'.
Proof. destruct st. vm_compute. repeat split. Qed.

(** ** Without a back element *)

Lemma onClick_focused x y st :
  focusedPlanet st <> None -> focusedPlanet (onClick x y st) <> None.
Proof.
  rewrite onClick_focusedPlanet. destruct (intersectObjects _ _ _); [auto|discriminate].
Qed.

Lemma onClick_no_backButton x y st :
  backButton st = None -> backButton (onClick x y st) = None.
Proof.
  intros H. rewrite onClick_backButton, H. by destruct (intersectObjects _ _ _).
Qed.

Lemma step_no_backButton st ev :
  backButton st = None -> focusedPlanet st <> None ->
  backButton (step st ev) = None /\ focusedPlanet (step st ev) <> None.
Proof.
  intros Hb Hf. destruct ev as [x y| |now input|W H]; simpl.
  - split; [by apply onClick_no_backButton|by apply onClick_focused].
  - rewrite Hb. auto.
  - split; [by rewrite tick_backButton|by rewrite tick_focusedPlanet].
  - auto.
Qed.

(** C9.  When the document has no back element, [backButton] is [null] in
    every state, so no back listener exists and a [BackClick] finds nothing
    to run; once some object is focused the selection is never [null]
    again, whatever events follow, and the target of the time scale stays
    0.1. *)
Theorem no_back_element_never_free host evs evs' :
  host_backButton host = None ->
  focusedPlanet (run (main host) evs) <> None ->
  let st' := run (run (main host) evs) evs' in
  backButton st' = None /\
  step st' BackClick = st' /\
  focusedPlanet st' <> None /\
  targetScale st' = 0.1.
Proof.
  intros Hhost Hf st'.
  assert (backButton (run (main host) evs) = None) as Hb.
  { clear Hf st'. induction evs as [|ev evs IH] using rev_ind.
    - change (run (main host) []) with (main host).
      rewrite main_backButton, Hhost. reflexivity.
    - rewrite run_snoc. generalize dependent (run (main host) evs). intros st IH.
      destruct ev as [x y| |now input|W H]; simpl.
      + by apply onClick_no_backButton.
      + by rewrite IH.
      + by rewrite tick_backButton.
      + assumption. }
  assert (backButton st' = None /\ focusedPlanet st' <> None) as [Hb' Hf'].
  { subst st'. revert Hb Hf. generalize (run (main host) evs) as st.
    induction evs' as [|ev evs' IH]; intros st Hb Hf; simpl; [auto|].
    destruct (step_no_backButton st ev Hb Hf). by apply IH. }
  repeat split; try assumption.
  - simpl. by rewrite Hb'.
  - unfold targetScale. destruct (focusedPlanet st'); [reflexivity|congruence].
Qed.

(** ** Rotations in a frame *)

Lemma rotation_of_rotateY i d m j :
  rotation_of (rotateY i d m) j =
  if decide (i = j) then (fun r => r + d) <$> rotation_of m j else rotation_of m j.
Proof.
  unfold rotation_of, rotateY. rewrite lookup_alter.
  case_decide as E; [subst j|reflexivity].
  destruct (m !! i); reflexivity.
Qed.

Lemma rotation_of_rotateY_eq i d m :
  rotation_of (rotateY i d m) i = (fun r => r + d) <$> rotation_of m i.
Proof. rewrite rotation_of_rotateY. by case_decide. Qed.

Lemma rotation_of_rotateY_ne i d m j :
  i <> j -> rotation_of (rotateY i d m) j = rotation_of m j.
Proof. intros H. rewrite rotation_of_rotateY. by case_decide. Qed.

Lemma scene_graph_lookup id : (id < 20)%nat -> is_Some (scene_graph !! id).
Proof.
  intros H. do 20 (destruct id as [|id]; [vm_compute; eauto|]). lia.
Qed.

Lemma Inv_rotation_of st id :
  Inv st -> (id < 20)%nat -> exists r, rotation_of (objects st) id = Some r.
Proof.
  intros HI Hid. unfold rotation_of.
  destruct (objects st !! id) as [o|] eqn:E; [simpl; eauto|].
  apply (same_graph_None _ _ _ (inv_graph _ HI)) in E.
  destruct (scene_graph_lookup id Hid) as [o Ho]. congruence.
Qed.

(** The rotations one run of [tick] adds, for a planet of the array. *)
Lemma tick_rotations st now input p :
  Inv st -> In p (planets st) ->
  let st' := tick now input st in
  (exists r, rotation_of (objects st) (p_orbitGroup p) = Some r /\
     rotation_of (objects st') (p_orbitGroup p) = Some (r + p_speed p * timeScale st')) /\
  (exists r, rotation_of (objects st) (p_planet p) = Some r /\
     rotation_of (objects st') (p_planet p) = Some (r + 0.01)) /\
  (forall mo, In mo (p_moons p) ->
     exists r, rotation_of (objects st) (m_group mo) = Some r /\
       rotation_of (objects st') (m_group mo) = Some (r + m_speed mo)).
Proof.
  intros HI Hp st'. subst st'. rewrite tick_objects.
  generalize (timeScale (tick now input st)) as ts. intros ts.
  rewrite (inv_starDust _ HI). rewrite (inv_planets _ HI) in *.
  unfold planets_built in *.
  cbn [fold_left tick_planet p_orbitGroup p_speed p_planet p_moons m_group m_speed].
  cbn [In] in Hp.
  destruct Hp as [<-|[<-|[<-|[]]]];
    cbn [p_orbitGroup p_speed p_planet p_moons m_group m_speed];
    (split; [|split; [|intros mo Hmo; cbn [In] in Hmo;
       repeat (destruct Hmo as [<-|Hmo]); try destruct Hmo;
       cbn [m_group m_speed]]]);
    repeat first [rewrite rotation_of_rotateY_ne by lia | rewrite rotation_of_rotateY_eq];
    match goal with
    | |- exists r, rotation_of _ ?id = _ /\ _ =>
        let r := fresh "r" in let Hr := fresh "Hr" in
        destruct (Inv_rotation_of st id HI ltac:(lia)) as [r Hr];
        exists r; rewrite Hr; split; reflexivity
    end.
Qed.

Lemma onBack_objects st : objects (onBack st) = objects st.
Proof. unfold onBack. simpl. handler_cases. Qed.

(** Only [tick] writes to the scene graph. *)
Lemma step_objects st ev : is_Frame ev = false -> objects (step st ev) = objects st.
Proof.
  destruct ev as [x y| |now input|W H]; simpl; intros E; try discriminate.
  - apply onClick_objects.
  - destruct (backButton st) as [b|]; [|reflexivity].
    destruct (click_listener b); [apply onBack_objects|reflexivity].
  - reflexivity.
Qed.

Lemma Inv_moon_rotation_of st p mo :
  Inv st -> In p (planets st) -> In mo (p_moons p) ->
  exists r, rotation_of (objects st) (m_group mo) = Some r.
Proof.
  intros HI Hp Hmo. apply (Inv_rotation_of st _ HI).
  rewrite (inv_planets _ HI) in Hp. unfold planets_built in Hp. cbn [In] in Hp.
  destruct Hp as [<-|[<-|[<-|[]]]]; cbn [In p_moons] in Hmo;
    repeat (destruct Hmo as [<-|Hmo]; [cbn [m_group]; lia|]); destruct Hmo.
Qed.

(** Over a run, the rotation of a moon orbit-group grows by its speed once
    per frame. *)
Lemma moon_rotation_run evs : forall st p mo,
  Inv st -> In p (planets st) -> In mo (p_moons p) ->
  exists r r', rotation_of (objects st) (m_group mo) = Some r /\
    rotation_of (objects (run st evs)) (m_group mo) = Some r' /\
    r' == r + inject_Z (Z.of_nat (frames evs)) * m_speed mo.
Proof.
  induction evs as [|ev evs IH]; intros st p mo HI Hp Hmo.
  - destruct (Inv_moon_rotation_of st p mo HI Hp Hmo) as [r Hr].
    exists r, r. repeat split; try assumption.
    cbn [frames]. change (inject_Z (Z.of_nat 0)) with 0. ring.
  - change (run st (ev :: evs)) with (run (step st ev) evs).
    assert (In p (planets (step st ev))) as Hp'.
    { rewrite (inv_planets _ (Inv_step st ev HI)). by rewrite <- (inv_planets _ HI). }
    destruct (IH (step st ev) p mo (Inv_step st ev HI) Hp' Hmo) as (r1 & r' & Hr1 & Hr' & E).
    destruct (is_Frame ev) eqn:Ef.
    + destruct ev as [| |now input|]; try discriminate.
      destruct (tick_rotations st now input p HI Hp) as (_ & _ & Hm).
      destruct (Hm mo Hmo) as (r & Hr & Hr2).
      change (step st (Frame now input)) with (tick now input st) in Hr1.
      rewrite Hr2 in Hr1. injection Hr1 as <-.
      exists r, r'. repeat split; try assumption.
      rewrite E. cbn [frames]. rewrite Nat2Z.inj_succ. unfold Z.succ.
      rewrite inject_Z_plus. change (inject_Z 1) with 1. ring.
    + rewrite (step_objects st ev Ef) in Hr1.
      exists r1, r'. repeat split; try assumption.
      rewrite E. destruct ev; try discriminate; cbn [frames]; reflexivity.
Qed.

(** C2.  In every frame, for every planet of the array: the rotation of its
    orbit-group grows by [speed * timeScale] (the time scale of that frame),
    that of its mesh by the fixed 0.01, and that of each of its moon
    orbit-groups by the moon's own speed, not scaled by the time scale and
    whether or not something is focused; so over any run of events a moon
    orbit-group has turned by its speed times the number of frames. *)
Theorem frame_advances_rotations host evs now input p :
  let st := run (main host) evs in
  let st' := tick now input st in
  In p (planets st) ->
  (exists r, rotation_of (objects st) (p_orbitGroup p) = Some r /\
     rotation_of (objects st') (p_orbitGroup p) = Some (r + p_speed p * timeScale st')) /\
  (exists r, rotation_of (objects st) (p_planet p) = Some r /\
     rotation_of (objects st') (p_planet p) = Some (r + 0.01)) /\
  (forall mo, In mo (p_moons p) ->
     (exists r, rotation_of (objects st) (m_group mo) = Some r /\
        rotation_of (objects st') (m_group mo) = Some (r + m_speed mo)) /\
     (forall evs', exists r r', rotation_of (objects st) (m_group mo) = Some r /\
        rotation_of (objects (run st evs')) (m_group mo) = Some r' /\
        r' == r + inject_Z (Z.of_nat (frames evs')) * m_speed mo)).
Proof.
  intros st st' Hp. pose proof (Inv_reachable host evs) as HI. fold st in HI.
  destruct (tick_rotations st now input p HI Hp) as (Ho & Hm & Hmo).
  split; [exact Ho|]. split; [exact Hm|].
  intros mo Hin. split; [by apply Hmo|].
  intros evs'. by apply (moon_rotation_run evs' st p mo).
Qed.

(** ** Picking *)

Lemma Inv_setMouse x y st : Inv st -> Inv (setMouse x y st).
Proof. intros [Hs Hd Hp Hg Hf Ht Hl]. split; assumption. Qed.

(** The first entry of the intersections is a nearest one among those of
    the tested meshes: the planet meshes and, the walk being recursive, the
    meshes of their moons. *)
Lemma pick_nearest x y st i l :
  Inv st ->
  intersectObjects (setMouse x y st) (planet_meshes st) true = i :: l ->
  In (object i) (planet_meshes st ++ moon_meshes st) /\
  In (distance i) (Object3D_raycast (setMouse x y st) (object i)) /\
  forall k d, In k (planet_meshes st ++ moon_meshes st) ->
    In d (Object3D_raycast (setMouse x y st) k) -> distance i <= d.
Proof.
  intros HI E. pose proof (Inv_setMouse x y st HI) as HI'.
  assert (In i (intersectObjects (setMouse x y st) (planet_meshes st) true)) as Hi
    by (rewrite E; by left).
  apply in_intersectObjects in Hi. destruct Hi as [Hi Hd].
  apply (Inv_tested_In _ HI') in Hi.
  repeat split; try assumption.
  intros k d Hk Hkd. rewrite intersectObjects_tested in E.
  apply sort_head_nearest in E. destruct E as [_ E].
  apply (E (mkIntersection d k)). apply in_flat_map. exists k. split.
  - by apply (Inv_tested_In _ HI').
  - apply in_map_iff. eauto.
Qed.

(** Nothing is picked exactly when the ray meets none of the tested meshes. *)
Lemma pick_none x y st :
  Inv st ->
  intersectObjects (setMouse x y st) (planet_meshes st) true = [] ->
  forall k, In k (planet_meshes st ++ moon_meshes st) ->
    Object3D_raycast (setMouse x y st) k = [].
Proof.
  intros HI E k Hk. pose proof (Inv_setMouse x y st HI) as HI'.
  destruct (Object3D_raycast (setMouse x y st) k) as [|d ds] eqn:Ek; [reflexivity|].
  assert (In (mkIntersection d k)
            (intersectObjects (setMouse x y st) (planet_meshes st) true)) as Hi.
  { apply in_intersectObjects. split.
    - by apply (Inv_tested_In _ HI').
    - simpl. rewrite Ek. by left. }
  rewrite E in Hi. destruct Hi.
Qed.

(** A ray that meets no planet mesh and no moon mesh (one that meets only
    the sun or the star field, say) picks nothing. *)
Lemma pick_off_target x y st :
  Inv st ->
  (forall k, In k (planet_meshes st ++ moon_meshes st) ->
     Object3D_raycast (setMouse x y st) k = []) ->
  intersectObjects (setMouse x y st) (planet_meshes st) true = [].
Proof.
  intros HI Hk.
  destruct (intersectObjects (setMouse x y st) (planet_meshes st) true) as [|i l] eqn:E;
    [reflexivity|].
  destruct (pick_nearest x y st i l HI E) as (Hi & Hd & _).
  rewrite (Hk _ Hi) in Hd. destruct Hd.
Qed.

(** Without the walk into the children only the listed objects are tested. *)
Lemma tested_flat fuel m id k : In k (tested fuel m false id) -> k = id.
Proof.
  destruct fuel as [|fuel]; simpl; [intros []|].
  destruct (m !! id) as [o|]; [|intros []].
  rewrite app_nil_r. destruct (kind o); simpl; intuition.
Qed.

Lemma intersectObjects_flat st objs i :
  In i (intersectObjects st objs false) -> In (object i) objs.
Proof.
  intros H. apply in_intersectObjects in H. destruct H as [H _].
  apply in_flat_map in H. destruct H as (a & Ha & Hk).
  apply tested_flat in Hk. by subst.
Qed.

(** When nothing is picked the click changes the selection, the camera and
    the back element as little as the scene graph. *)
Lemma click_none_noop x y st :
  intersectObjects (setMouse x y st) (planet_meshes st) true = [] ->
  focusedPlanet (onClick x y st) = focusedPlanet st /\
  camera_position (onClick x y st) = camera_position st /\
  backButton (onClick x y st) = backButton st /\
  objects (onClick x y st) = objects st.
Proof.
  intros E. unfold onClick. unfold planet_meshes in E.
  cbn [planets setMouse set_mouse] in *. rewrite E. repeat split.
Qed.

(** The mesh whose hit is strictly nearer than every hit of another tested
    mesh is the one picked. *)
Lemma pick_unique_nearest x y st e :
  Inv st ->
  In e (planet_meshes st ++ moon_meshes st) ->
  (exists d, In d (Object3D_raycast (setMouse x y st) e) /\
     forall k d', In k (planet_meshes st ++ moon_meshes st) -> k <> e ->
       In d' (Object3D_raycast (setMouse x y st) k) -> d < d') ->
  exists i l, intersectObjects (setMouse x y st) (planet_meshes st) true = i :: l /\
    object i = e.
Proof.
  intros HI He (d & Hd & Hnear).
  destruct (intersectObjects (setMouse x y st) (planet_meshes st) true) as [|i l] eqn:E.
  - rewrite (pick_none x y st HI E e He) in Hd. destruct Hd.
  - exists i, l. split; [reflexivity|].
    destruct (pick_nearest x y st i l HI E) as (Hi & Hid & Hmin).
    destruct (Nat.eq_dec (object i) e) as [|Hne]; [assumption|exfalso].
    specialize (Hnear _ _ Hi Hne Hid). specialize (Hmin _ _ He Hd). lra.
Qed.

Lemma scene_graph_Earth :
  map_Forall (fun k o => userData_name o = Some "Earth"%string -> k = 11%nat) scene_graph.
Proof. apply (bool_decide_unpack _). vm_compute. exact I. Qed.

(** The one object named "Earth". *)
Lemma Inv_Earth st e :
  Inv st -> name_of (objects st) e = Some "Earth"%string -> e = 11%nat.
Proof.
  intros HI. rewrite (same_graph_name_of _ _ e (inv_graph _ HI)). unfold name_of.
  destruct (scene_graph !! e) as [o|] eqn:E; [|discriminate].
  apply (scene_graph_Earth e o E).
Qed.

Lemma onClick_camera_position x y st i l worldPos :
  intersectObjects (setMouse x y st) (planet_meshes st) true = i :: l ->
  getWorldPosition (objects st) (object i) = Some worldPos ->
  camera_position (onClick x y st) = Vector3_add worldPos (mkVector3 5 3 5).
Proof.
  intros E Hw. unfold onClick. unfold planet_meshes in E.
  cbn [planets setMouse set_mouse] in *. rewrite E.
  cbn -[getWorldPosition Vector3_add].
  destruct (backButton st); cbn -[getWorldPosition Vector3_add]; rewrite Hw; reflexivity.
Qed.

Lemma onBack_effect st b :
  backButton st = Some b ->
  focusedPlanet (onBack st) = None /\
  backButton (onBack st) = Some (mkHTMLElement "none" (click_listener b)) /\
  controls_target (onBack st) = mkVector3 0 0 0.
Proof. intros E. unfold onBack. cbn. rewrite E. repeat split. Qed.

Lemma step_backButton st ev :
  is_Some (backButton st) -> is_Some (backButton (step st ev)).
Proof.
  intros [b Hb]. destruct ev as [x y| |now input|W H]; simpl.
  - rewrite onClick_backButton, Hb. destruct (intersectObjects _ _ _); eauto.
  - rewrite Hb. destruct (click_listener b); [|eauto].
    destruct (onBack_effect st b Hb) as (_ & -> & _). eauto.
  - rewrite tick_backButton. eauto.
  - eauto.
Qed.

Lemma run_backButton st evs :
  is_Some (backButton st) -> is_Some (backButton (run st evs)).
Proof.
  revert st. induction evs as [|ev evs IH]; intros st H; [assumption|].
  apply IH. by apply step_backButton.
Qed.

(** A run of frames leaves the selection and the back element alone. *)
Lemma run_frames_only l : forall st,
  focusedPlanet (run st (frames_of l)) = focusedPlanet st /\
  backButton (run st (frames_of l)) = backButton st.
Proof.
  induction l as [|f l IH]; intros st; [split; reflexivity|].
  change (run st (frames_of (f :: l)))
    with (run (tick (fst f) (snd f) st) (frames_of l)).
  destruct (IH (tick (fst f) (snd f) st)) as [-> ->].
  by rewrite tick_focusedPlanet, tick_backButton.
Qed.

(** A click whose ray meets the mesh [e] strictly nearer than every other
    planet mesh and moon mesh selects [e], shows the back element (when the
    document has one) and puts the camera at the world position of [e] plus
    (5, 3, 5). *)
Lemma click_on_the_nearest_mesh x y st e :
  Inv st ->
  In e (planet_meshes st ++ moon_meshes st) ->
  (exists d, In d (Object3D_raycast (setMouse x y st) e) /\
     forall k d', In k (planet_meshes st ++ moon_meshes st) -> k <> e ->
       In d' (Object3D_raycast (setMouse x y st) k) -> d < d') ->
  focusedPlanet (onClick x y st) = Some e /\
  (forall b, backButton st = Some b ->
     backButton (onClick x y st) = Some (mkHTMLElement "block" true)) /\
  exists worldPos, getWorldPosition (objects st) e = Some worldPos /\
    camera_position (onClick x y st) = Vector3_add worldPos (mkVector3 5 3 5).
Proof.
  intros HI He Hhit.
  destruct (pick_unique_nearest x y st e HI He Hhit) as (i & l & E & Hi).
  split; [|split].
  - rewrite onClick_focusedPlanet, E. by rewrite Hi.
  - intros b Eb. rewrite onClick_backButton, E, Eb.
    by rewrite (inv_listener _ HI b Eb).
  - destruct (Inv_getWorldPosition st HI e He) as [worldPos Hw].
    exists worldPos. split; [assumption|].
    apply (onClick_camera_position x y st i l); [assumption|by rewrite Hi].
Qed.

(** The listener of the back element alone: it leaves the camera, the time
    scale, the scene graph, the pointer and the sizes as they are, and a
    second run of it changes nothing. *)
Lemma back_listener_alone st :
  let st' := step st BackClick in
  camera_position st' = camera_position st /\
  timeScale st' = timeScale st /\
  objects st' = objects st /\
  planets st' = planets st /\
  mouse st' = mouse st /\
  viewport st' = viewport st /\
  step st' BackClick = st'.
Proof.
  destruct st as [? ? ? ? ? ? [[d []]|] ? ? ? ? ? ? ? ? ? ? ?];
    cbv zeta; unfold step, onBack; cbn; repeat split; reflexivity.
Qed.

Lemma onClick_miss x y st :
  Inv st ->
  (forall k, In k (planet_meshes st ++ moon_meshes st) ->
     Object3D_raycast (setMouse x y st) k = []) ->
  onClick x y st = setMouse x y st.
Proof.
  intros HI Hmiss. pose proof (pick_off_target x y st HI Hmiss) as E.
  unfold onClick. unfold planet_meshes in E.
  change (planets (setMouse x y st)) with (planets st). by rewrite E.
Qed.

(** A click on the back element whose ray, cast by the listener of
    [window] as the event bubbles, meets no planet mesh and no moon mesh:
    the selection is cleared, the element hidden, the target of the
    controls reset, and the camera stays where it is. *)
Lemma click_on_back_that_misses x y st b :
  Inv st -> backButton st = Some b ->
  (forall k, In k (planet_meshes st ++ moon_meshes st) ->
     Object3D_raycast (setMouse x y (step st BackClick)) k = []) ->
  let st' := run st (click_on_back x y) in
  st' = setMouse x y (onBack st) /\
  focusedPlanet st' = None /\
  backButton st' = Some (mkHTMLElement "none" true) /\
  controls_target st' = mkVector3 0 0 0 /\
  camera_position st' = camera_position st.
Proof.
  intros HI Eb Hmiss st'.
  pose proof (inv_listener _ HI b Eb) as Hl.
  assert (step st BackClick = onBack st) as E1 by (cbn [step]; by rewrite Eb, Hl).
  pose proof (Inv_step st BackClick HI) as HI1.
  assert (st' = setMouse x y (onBack st)) as E2.
  { subst st'. unfold click_on_back, run. cbn [fold_left].
    change (step (step st BackClick) (Click x y)) with (onClick x y (step st BackClick)).
    rewrite (onClick_miss x y _ HI1).
    - by rewrite E1.
    - intros k Hk. apply Hmiss.
      rewrite (Inv_planet_meshes _ HI1), (Inv_moon_meshes _ HI1) in Hk.
      by rewrite (Inv_planet_meshes _ HI), (Inv_moon_meshes _ HI). }
  destruct (onBack_effect st b Eb) as (H1 & H2 & H3). rewrite Hl in H2.
  destruct (back_listener_alone st) as (Hc & _). rewrite E1 in Hc.
  rewrite E2. split; [reflexivity|].
  split; [exact H1|]. split; [exact H2|]. split; [exact H3|exact Hc].
Qed.

(** What holds of the scenario "click Earth, then click back".  A click
    whose ray meets the mesh named "Earth" strictly nearer than every other
    planet mesh and moon mesh selects that mesh, shows the back element
    (when the document has one) and puts the camera at the mesh's world
    position at that moment plus (5, 3, 5).  A click on the back element
    after that, whatever happened in between, runs the listener of the
    element and then the click listener of [window]; when the ray through
    the point of that click meets no planet mesh and no moon mesh, the
    selection is cleared, the element hidden and the target of the
    controls set to (0, 0, 0). *)
Lemma click_Earth_then_back host evs x y earth evs2 bx by_ :
  let st := run (main host) evs in
  let ray := setMouse x y st in
  name_of (objects st) earth = Some "Earth"%string ->
  (exists d, In d (Object3D_raycast ray earth) /\
     forall k d', In k (planet_meshes st ++ moon_meshes st) -> k <> earth ->
       In d' (Object3D_raycast ray k) -> d < d') ->
  let st' := step st (Click x y) in
  let st2 := run st' evs2 in
  (forall k, In k (planet_meshes st2 ++ moon_meshes st2) ->
     Object3D_raycast (setMouse bx by_ (step st2 BackClick)) k = []) ->
  focusedPlanet st' = Some earth /\
  (forall b, backButton st = Some b ->
     backButton st' = Some (mkHTMLElement "block" true)) /\
  (exists worldPos, getWorldPosition (objects st) earth = Some worldPos /\
     camera_position st' = Vector3_add worldPos (mkVector3 5 3 5)) /\
  (forall b, backButton st = Some b ->
     let st3 := run st2 (click_on_back bx by_) in
     focusedPlanet st3 = None /\
     backButton st3 = Some (mkHTMLElement "none" true) /\
     controls_target st3 = mkVector3 0 0 0).
Proof.
  intros st ray Hname Hhit st' st2 Hmiss.
  pose proof (Inv_reachable host evs) as HI. fold st in HI.
  assert (In earth (planet_meshes st ++ moon_meshes st)) as He.
  { rewrite (Inv_Earth st earth HI Hname), (Inv_planet_meshes st HI). in_list. }
  destruct (click_on_the_nearest_mesh x y st earth HI He Hhit) as (Hf & Hb & Hw).
  split; [exact Hf|]. split; [exact Hb|]. split; [exact Hw|].
  intros b Eb st3.
  pose proof (Inv_run st' evs2 (Inv_step st (Click x y) HI)) as HI2. fold st2 in HI2.
  destruct (run_backButton st' evs2) as [b2 Eb2];
    [change (is_Some (backButton (onClick x y st))); rewrite (Hb b Eb); eauto|].
  fold st2 in Eb2.
  destruct (click_on_back_that_misses bx by_ st2 b2 HI2 Eb2 Hmiss)
    as (_ & H1 & H2 & H3 & _).
  auto.
Qed.

(** ** Tracking the focused object *)

Lemma tick_animate_same_graph now st :
  same_graph (objects (tick_animate now st)) (objects st).
Proof.
  unfold tick_animate. cbn.
  eapply same_graph_trans; [apply same_graph_forEach|apply same_graph_rotateY].
Qed.

Lemma Inv_tick_animate now st : Inv st -> Inv (tick_animate now st).
Proof.
  intros [Hs Hd Hp Hg Hf Ht Hl]. split; try assumption.
  - eapply same_graph_trans; [apply tick_animate_same_graph|assumption].
  - intros p Hp'.
    rewrite (same_meshes st (tick_animate now st));
      [by apply Hf|reflexivity|apply tick_animate_same_graph].
  - apply lerp_bounds; [assumption|apply targetScale_bounds].
Qed.

(** C4.  In a frame run while [p] is focused, after lines 138-144 the
    target of the controls is the world position of [p], computed from the
    rotations this frame has just written; that is the state
    [controls.update()] receives, and the scene graph it is rendered from.
    When [controls.update()] leaves the target where it is (no pan is
    pending), this is the target at the end of the frame too. *)
Theorem target_follows_focus host evs now input p :
  let st := run (main host) evs in
  focusedPlanet st = Some p ->
  let st' := tick_follow (tick_animate now st) in
  tick now input st = controls_update input st' /\
  objects (tick now input st) = objects st' /\
  focusedPlanet st' = Some p /\
  exists worldPos,
    getWorldPosition (objects st') p = Some worldPos /\
    controls_target st' = worldPos /\
    (snd (OrbitControls_update input (camera_position st') worldPos) = worldPos ->
     controls_target (tick now input st) = worldPos).
Proof.
  intros st Hf st'.
  pose proof (Inv_tick_animate now st (Inv_reachable host evs)) as HI.
  assert (focusedPlanet (tick_animate now st) = Some p) as Hf' by exact Hf.
  destruct (Inv_getWorldPosition _ HI p (inv_focus _ HI p Hf')) as [worldPos Hw].
  assert (st' = set_controls_target worldPos (tick_animate now st)) as E.
  { subst st'. unfold tick_follow. rewrite Hf', Hw. reflexivity. }
  assert (tick now input st = controls_update input st') as Ht by reflexivity.
  split; [exact Ht|]. split; [|split].
  - rewrite Ht, E. unfold controls_update. cbn.
    destruct (OrbitControls_update _ _ _). reflexivity.
  - rewrite E. exact Hf'.
  - exists worldPos. rewrite Ht, E. split; [exact Hw|]. split; [reflexivity|].
    unfold controls_update. cbn.
    destruct (OrbitControls_update _ _ _) as [pos target]. cbn.
    intros ->. reflexivity.
Qed.

(** ** The shape of the scene graph *)

Lemma same_graph_is_Mesh m m' id : same_graph m m' -> is_Mesh m id = is_Mesh m' id.
Proof. intros H. unfold is_Mesh. by rewrite (same_graph_kind_of _ _ id H). Qed.

Lemma same_graph_is_Group m m' id : same_graph m m' -> is_Group m id = is_Group m' id.
Proof. intros H. unfold is_Group. by rewrite (same_graph_kind_of _ _ id H). Qed.

Lemma same_graph_owns m m' a b : same_graph m m' -> owns m a b <-> owns m' a b.
Proof.
  intros H. unfold owns.
  by rewrite (same_graph_children_of _ _ a H), (same_graph_parent_of _ _ b H).
Qed.

(** C7, as the code builds it.  In every state of the page: the scene owns
    one orbit-group per planet of the array, a different one for each; an
    orbit-group has one child, the planet mesh; the children of the planet
    mesh are its moon orbit-groups, so these are owned by the mesh and not
    by the planet's orbit-group; and a moon orbit-group has one child, a
    moon mesh. *)
Theorem scene_graph_ownership host evs p :
  let st := run (main host) evs in
  let m := objects st in
  In p (planets st) ->
  NoDup (map p_orbitGroup (planets st)) /\
  is_Group m (p_orbitGroup p) = true /\
  owns m (scene st) (p_orbitGroup p) /\
  children_of m (p_orbitGroup p) = [p_planet p] /\
  is_Mesh m (p_planet p) = true /\
  owns m (p_orbitGroup p) (p_planet p) /\
  children_of m (p_planet p) = map m_group (p_moons p) /\
  forall mo, In mo (p_moons p) ->
    is_Group m (m_group mo) = true /\
    owns m (p_planet p) (m_group mo) /\
    ~ owns m (p_orbitGroup p) (m_group mo) /\
    exists moon, children_of m (m_group mo) = [moon] /\
      is_Mesh m moon = true /\ owns m (m_group mo) moon.
Proof.
  intros st m Hp. destruct (Inv_reachable host evs) as [Hs _ Hpl Hg _ _ _].
  fold st in Hs, Hpl, Hg. fold m in Hg.
  rewrite Hs. rewrite Hpl in *. unfold planets_built in *. cbn [In] in Hp.
  assert (NoDup [6; 10; 16]%nat) as Hnd
    by (apply (bool_decide_unpack _); vm_compute; exact I).
  destruct Hp as [<-|[<-|[<-|[]]]];
    cbn [map p_orbitGroup p_planet p_moons m_group];
    (split; [exact Hnd|]);
    rewrite !(same_graph_is_Group _ _ _ Hg), !(same_graph_is_Mesh _ _ _ Hg),
      !(same_graph_owns _ _ _ _ Hg), !(same_graph_children_of _ _ _ Hg);
    do 6 (split; [by_eval|]);
    intros mo Hmo; cbn [In] in Hmo;
    repeat (destruct Hmo as [<-|Hmo]); try destruct Hmo; cbn [m_group];
    rewrite !(same_graph_is_Group _ _ _ Hg), !(same_graph_owns _ _ _ _ Hg);
    do 2 (split; [by_eval|]);
    (split; [vm_compute; intros [[H|[]] _]; discriminate H|]);
    rewrite (same_graph_children_of _ _ _ Hg);
    match goal with
    | |- exists moon, children_of _ ?g = _ /\ _ =>
        let c := eval vm_compute in (children_of scene_graph g) in
        match c with [?x] => exists x end
    end;
    (split; [vm_compute; reflexivity|]);
    rewrite (same_graph_is_Mesh _ _ _ Hg), (same_graph_owns _ _ _ _ Hg);
    (split; by_eval).
Qed.

(** ** [createPlanet] on any arguments *)

Lemma removeFromParent_orphan c m o :
  m !! c = Some o -> parent o = None -> removeFromParent c m = m.
Proof. intros H Hp. unfold removeFromParent. by rewrite H, Hp. Qed.

(** [p.add(c)] for a child that has no parent yet. *)
Lemma add_orphan p c h oc :
  p <> c -> h_objects h !! c = Some oc -> parent oc = None ->
  add p c h =
  mkHeap (alter (push_child c) p (alter (set_parent (Some p)) c (h_objects h)))
    (h_next h).
Proof.
  intros Hne Hc Hp. unfold add.
  destruct (Nat.eqb_spec p c) as [|_]; [contradiction|].
  by rewrite (removeFromParent_orphan c _ oc Hc Hp).
Qed.

Lemma wf_heap_lt h k o : wf_heap h -> h_objects h !! k = Some o -> (k < h_next h)%nat.
Proof.
  intros Hwf Hk. destruct (Nat.lt_ge_cases k (h_next h)) as [|Hge]; [assumption|].
  rewrite (Hwf k Hge) in Hk. discriminate.
Qed.

(** One run of the callback of [moonConfigs.map]: two objects are
    allocated, the moon orbit-group under the planet mesh and the moon mesh
    under the orbit-group; nothing else changes. *)
Lemma createMoon_spec planet cfg h po :
  wf_heap h -> h_objects h !! planet = Some po ->
  let g := h_next h in
  let mn := S g in
  exists h',
    createMoon planet cfg h = (mkMoonObj g (cfg_speed cfg), h') /\
    h_next h' = S (S g) /\ wf_heap h' /\
    h_objects h' !! g = Some (mkObject3D Group (Some planet) [mn] Vector3_zero 0 None) /\
    h_objects h' !! mn =
      Some (mkObject3D (Mesh (cfg_size cfg) moon_color) (Some g) []
              (mkVector3 (cfg_dist cfg) 0 0) 0 None) /\
    h_objects h' !! planet = Some (push_child g po) /\
    (forall k, k <> planet -> (k < g)%nat -> h_objects h' !! k = h_objects h !! k).
Proof.
  intros Hwf Hpl g mn. pose proof (wf_heap_lt _ _ _ Hwf Hpl) as Hlt. fold g in Hlt.
  destruct h as [m n]. cbn in g, Hlt, Hpl. subst g mn.
  unfold createMoon, new_Object3D. cbn [h_next h_objects].
  rewrite (add_orphan planet n _ (mkObject3D Group None [] Vector3_zero 0 None));
    [|lia|cbn; apply lookup_insert_eq|reflexivity].
  unfold set_position_x. cbn [h_next h_objects].
  rewrite (add_orphan n (S n) _
             (mkObject3D (Mesh (cfg_size cfg) moon_color) None []
                (mkVector3 (cfg_dist cfg) 0 0) 0 None));
    [|lia| |reflexivity].
  2:{ cbn [h_objects]. rewrite lookup_alter_eq, lookup_insert_eq. reflexivity. }
  eexists. split; [reflexivity|]. cbn [h_next h_objects].
  split; [reflexivity|]. split; [|split; [|split; [|split]]].
  - intros k Hk. cbn [h_next h_objects] in *.
    rewrite !lookup_alter_ne, lookup_insert_ne, !lookup_alter_ne, lookup_insert_ne by lia.
    apply Hwf. cbn. lia.
  - rewrite lookup_alter_eq, lookup_alter_ne, lookup_alter_ne, lookup_insert_ne by lia.
    rewrite lookup_alter_ne, lookup_alter_eq, lookup_insert_eq by lia. reflexivity.
  - rewrite lookup_alter_ne, lookup_alter_eq, lookup_alter_eq, lookup_insert_eq by lia.
    reflexivity.
  - rewrite !lookup_alter_ne, lookup_insert_ne by lia.
    rewrite lookup_alter_eq, lookup_alter_ne, lookup_insert_ne, Hpl by lia. reflexivity.
  - intros k Hk Hkn.
    rewrite !lookup_alter_ne, lookup_insert_ne, !lookup_alter_ne, lookup_insert_ne by lia.
    reflexivity.
Qed.

(** [moonConfigs.map(...)]: one moon orbit-group and one moon mesh per
    configuration, in order, at consecutive fresh references. *)
Lemma createMoons_spec planet cfgs : forall h po,
  wf_heap h -> h_objects h !! planet = Some po ->
  exists moons h',
    createMoons planet cfgs h = (moons, h') /\
    h_next h' = (h_next h + 2 * length cfgs)%nat /\ wf_heap h' /\
    map m_speed moons = map cfg_speed cfgs /\
    map m_group moons = map (fun i => (h_next h + 2 * i)%nat) (seq 0 (length cfgs)) /\
    h_objects h' !! planet =
      Some (set_children (children po ++ map m_group moons) po) /\
    (forall k, k <> planet -> (k < h_next h)%nat ->
       h_objects h' !! k = h_objects h !! k) /\
    (forall i cfg, cfgs !! i = Some cfg ->
       let g := (h_next h + 2 * i)%nat in
       moons !! i = Some (mkMoonObj g (cfg_speed cfg)) /\
       h_objects h' !! g =
         Some (mkObject3D Group (Some planet) [S g] Vector3_zero 0 None) /\
       h_objects h' !! S g =
         Some (mkObject3D (Mesh (cfg_size cfg) moon_color) (Some g) []
                 (mkVector3 (cfg_dist cfg) 0 0) 0 None)).
Proof.
  induction cfgs as [|cfg cfgs IH]; intros h po Hwf Hpl.
  - exists [], h. cbn [createMoons length map seq app].
    rewrite Nat.mul_0_r, Nat.add_0_r, app_nil_r.
    split; [reflexivity|]. split; [reflexivity|]. split; [assumption|].
    split; [reflexivity|]. split; [reflexivity|]. split; [|split].
    + rewrite Hpl. by destruct po.
    + reflexivity.
    + intros i c Hc. discriminate Hc.
  - destruct (createMoon_spec planet cfg h po Hwf Hpl)
      as (h1 & E1 & Hn1 & Hwf1 & Hg1 & Hm1 & Hp1 & Hk1).
    destruct (IH h1 (push_child (h_next h) po) Hwf1 Hp1)
      as (moons & h' & E & Hn & Hwf' & Hs & Hgs & Hp & Hk & Hmo).
    pose proof (wf_heap_lt _ _ _ Hwf Hpl) as Hlt.
    exists (mkMoonObj (h_next h) (cfg_speed cfg) :: moons), h'.
    cbn [createMoons]. rewrite E1, E. cbn [length map m_speed m_group seq].
    split; [reflexivity|]. split; [lia|]. split; [assumption|].
    split; [by rewrite Hs|]. split; [|split; [|split]].
    + rewrite Nat.mul_0_r, Nat.add_0_r. f_equal.
      rewrite Hgs, Hn1, <- seq_shift, map_map. apply map_ext. intros i. lia.
    + rewrite Hp. unfold push_child, set_children. cbn [children kind parent position
        rotation_y userData_name]. by rewrite <- app_assoc.
    + intros k Hkp Hkn. rewrite Hk by lia. exact (Hk1 k Hkp Hkn).
    + intros [|i] c Hc.
      * injection Hc as <-. rewrite Nat.mul_0_r, Nat.add_0_r.
        rewrite !Hk by lia. split; [reflexivity|]. auto.
      * cbn in Hc. specialize (Hmo i c Hc). cbn zeta in Hmo. rewrite Hn1 in Hmo.
        replace (h_next h + 2 * S i)%nat with (S (S (h_next h)) + 2 * i)%nat by lia.
        exact Hmo.
Qed.

(** [createPlanet] on any arguments, in any heap that holds the scene: what
    it returns and the heap it leaves. *)
Lemma createPlanet_spec scene size color distance speed name cfgs h planets so :
  wf_heap h -> h_objects h !! scene = Some so ->
  let og := h_next h in
  let pm := S og in
  exists moons h',
    createPlanet scene size color distance speed name cfgs (h, planets) =
      (mkPlanetObj og speed pm moons, (h', planets ++ [mkPlanetObj og speed pm moons])) /\
    h_next h' = (h_next h + 2 + 2 * length cfgs)%nat /\ wf_heap h' /\
    map m_speed moons = map cfg_speed cfgs /\
    map m_group moons = map (fun i => (og + 2 + 2 * i)%nat) (seq 0 (length cfgs)) /\
    h_objects h' !! scene = Some (push_child og so) /\
    h_objects h' !! og = Some (mkObject3D Group (Some scene) [pm] Vector3_zero 0 None) /\
    h_objects h' !! pm =
      Some (mkObject3D (Mesh size color) (Some og) (map m_group moons)
              (mkVector3 distance 0 0) 0 (Some name)) /\
    (forall k, k <> scene -> (k < h_next h)%nat ->
       h_objects h' !! k = h_objects h !! k) /\
    (forall i cfg, cfgs !! i = Some cfg ->
       let g := (og + 2 + 2 * i)%nat in
       moons !! i = Some (mkMoonObj g (cfg_speed cfg)) /\
       h_objects h' !! g =
         Some (mkObject3D Group (Some pm) [S g] Vector3_zero 0 None) /\
       h_objects h' !! S g =
         Some (mkObject3D (Mesh (cfg_size cfg) moon_color) (Some g) []
                 (mkVector3 (cfg_dist cfg) 0 0) 0 None)).
Proof.
  intros Hwf Hsc og pm. pose proof (wf_heap_lt _ _ _ Hwf Hsc) as Hlt. fold og in Hlt.
  destruct h as [m n]. cbn in og, Hlt, Hsc. subst og pm.
  unfold createPlanet, new_Object3D. cbn [h_next h_objects].
  rewrite (add_orphan scene n _ (mkObject3D Group None [] Vector3_zero 0 None));
    [|lia|cbn; apply lookup_insert_eq|reflexivity].
  unfold set_position_x, set_userData. cbn [h_next h_objects].
  rewrite (add_orphan n (S n) _
             (mkObject3D (Mesh size color) None [] (mkVector3 distance 0 0) 0 (Some name)));
    [|lia| |reflexivity].
  2:{ cbn [h_objects]. rewrite !lookup_alter_eq, lookup_insert_eq. reflexivity. }
  cbn [h_next h_objects].
  match goal with
  | |- context [createMoons _ _ ?h3] => set (h3' := h3)
  end.
  assert (wf_heap h3') as Hwf3.
  { intros k Hk. subst h3'. cbn [h_next h_objects] in *.
    rewrite !lookup_alter_ne, lookup_insert_ne, !lookup_alter_ne, lookup_insert_ne by lia.
    apply Hwf. cbn. lia. }
  assert (h_objects h3' !! S n =
            Some (mkObject3D (Mesh size color) (Some n) [] (mkVector3 distance 0 0) 0
                    (Some name))) as Hpm3.
  { subst h3'. cbn [h_objects].
    rewrite lookup_alter_ne, !lookup_alter_eq, lookup_insert_eq by lia. reflexivity. }
  assert (h_objects h3' !! n =
            Some (mkObject3D Group (Some scene) [S n] Vector3_zero 0 None)) as Hog3.
  { subst h3'. cbn [h_objects].
    rewrite lookup_alter_eq, !lookup_alter_ne, lookup_insert_ne by lia.
    rewrite lookup_alter_ne, lookup_alter_eq, lookup_insert_eq by lia. reflexivity. }
  assert (h_objects h3' !! scene = Some (push_child n so)) as Hsc3.
  { subst h3'. cbn [h_objects].
    rewrite !lookup_alter_ne, lookup_insert_ne by lia.
    rewrite lookup_alter_eq, lookup_alter_ne, lookup_insert_ne, Hsc by lia. reflexivity. }
  assert (forall k, k <> scene -> (k < n)%nat -> h_objects h3' !! k = m !! k) as Hk3.
  { intros k Hks Hkn. subst h3'. cbn [h_objects].
    rewrite !lookup_alter_ne, lookup_insert_ne, !lookup_alter_ne, lookup_insert_ne by lia.
    reflexivity. }
  assert (h_next h3' = S (S n)) as Hn3 by reflexivity.
  destruct (createMoons_spec (S n) cfgs h3' _ Hwf3 Hpm3)
    as (moons & h' & E & Hn & Hwf' & Hs & Hgs & Hp & Hk & Hmo).
  clearbody h3'. rewrite E. exists moons, h'. cbn [h_next h_objects].
  split; [reflexivity|]. split; [lia|]. split; [assumption|]. split; [assumption|].
  split; [|split; [|split; [|split; [|split]]]].
  - rewrite Hgs, Hn3. apply map_ext. intros i. lia.
  - rewrite Hk by lia. assumption.
  - rewrite Hk by lia. assumption.
  - rewrite Hp. reflexivity.
  - intros k Hks Hkn. rewrite Hk by lia. by apply Hk3.
  - intros i cfg Hc. specialize (Hmo i cfg Hc). cbn zeta in *. rewrite Hn3 in Hmo.
    replace (n + 2 + 2 * i)%nat with (S (S n) + 2 * i)%nat by lia. exact Hmo.
Qed.

Lemma add_next p c h : h_next (add p c h) = h_next h.
Proof. unfold add. by destruct (Nat.eqb p c). Qed.

Lemma createMoons_speeds planet cfgs : forall h,
  map m_speed (fst (createMoons planet cfgs h)) = map cfg_speed cfgs.
Proof.
  induction cfgs as [|cfg cfgs IH]; intros h; [reflexivity|].
  cbn [createMoons]. destruct (createMoon planet cfg h) as [mo h1] eqn:E1.
  specialize (IH h1). destruct (createMoons planet cfgs h1) as [mos h2].
  cbn [fst map] in *. rewrite IH. f_equal.
  unfold createMoon, new_Object3D in E1. cbn in E1. by injection E1 as <- _.
Qed.

(** X1.  [createPlanet] returns, and appends to [planets], an entry that carries
    the orbital speed it was given and one moon entry per configuration,
    with the configured speeds in the order of the configurations. *)
Theorem createPlanet_returns scene size color distance speed name cfgs h planets :
  let r := createPlanet scene size color distance speed name cfgs (h, planets) in
  snd (snd r) = planets ++ [fst r] /\
  p_speed (fst r) = speed /\
  p_orbitGroup (fst r) = h_next h /\
  p_planet (fst r) = S (h_next h) /\
  map m_speed (p_moons (fst r)) = map cfg_speed cfgs.
Proof.
  unfold createPlanet, new_Object3D. cbn [h_next h_objects]. rewrite add_next.
  cbn [h_next]. match goal with
  | |- context [createMoons ?p ?c ?h3] =>
      pose proof (createMoons_speeds p c h3) as Hs;
      destruct (createMoons p c h3) as [moons h4]
  end.
  cbn [fst snd p_speed p_orbitGroup p_planet p_moons] in *.
  do 4 (split; [reflexivity|]). exact Hs.
Qed.

(** X2.  The subtree [createPlanet] builds, on any arguments: the scene owns the
    new orbit-group, whose only child is the planet mesh, of the given size
    and colour, at (distance, 0, 0) and tagged with the name; the children
    of the mesh are the moon orbit-groups in the order of the
    configurations, and each of them has one child, a moon mesh of the
    configured size at (dist, 0, 0). *)
Theorem createPlanet_builds_subtree
    scene size color distance speed name cfgs h planets :
  wf_heap h -> is_Some (h_objects h !! scene) ->
  let r := createPlanet scene size color distance speed name cfgs (h, planets) in
  let po := fst r in
  let m' := h_objects (fst (snd r)) in
  kind_of m' (p_orbitGroup po) = Some Group /\
  owns m' scene (p_orbitGroup po) /\
  children_of m' (p_orbitGroup po) = [p_planet po] /\
  kind_of m' (p_planet po) = Some (Mesh size color) /\
  owns m' (p_orbitGroup po) (p_planet po) /\
  name_of m' (p_planet po) = Some name /\
  position_of m' (p_planet po) = Some (mkVector3 distance 0 0) /\
  children_of m' (p_planet po) = map m_group (p_moons po) /\
  length (p_moons po) = length cfgs /\
  forall i cfg, cfgs !! i = Some cfg ->
    exists mo moon,
      p_moons po !! i = Some mo /\
      m_speed mo = cfg_speed cfg /\
      kind_of m' (m_group mo) = Some Group /\
      owns m' (p_planet po) (m_group mo) /\
      children_of m' (m_group mo) = [moon] /\
      kind_of m' moon = Some (Mesh (cfg_size cfg) moon_color) /\
      owns m' (m_group mo) moon /\
      position_of m' moon = Some (mkVector3 (cfg_dist cfg) 0 0).
Proof.
  intros Hwf [so Hsc] r po m'.
  destruct (createPlanet_spec scene size color distance speed name cfgs h planets so
              Hwf Hsc)
    as (moons & h' & E & Hn & Hwf' & Hs & Hgs & Hsc' & Hog & Hpm & Hk & Hmo).
  subst po m' r. rewrite E. cbn [fst snd p_orbitGroup p_planet p_moons].
  unfold kind_of, owns, children_of, parent_of, name_of, position_of.
  rewrite Hog, Hpm, Hsc'. cbn.
  split; [reflexivity|]. split; [split; [apply in_or_app; right; by left|reflexivity]|].
  split; [reflexivity|]. split; [reflexivity|].
  split; [split; [by left|reflexivity]|].
  split; [reflexivity|]. split; [reflexivity|]. split; [reflexivity|].
  split.
  { rewrite <- (length_map m_speed), Hs. apply length_map. }
  intros i cfg Hc. destruct (Hmo i cfg Hc) as (Hmi & Hg & Hmn). cbn zeta in *.
  eexists _, _. split; [exact Hmi|]. cbn [m_speed m_group].
  rewrite Hg, Hmn. cbn. split; [reflexivity|]. split; [reflexivity|].
  split; [|repeat split; by left].
  split; [|reflexivity].
  apply (in_map m_group moons (mkMoonObj (h_next h + 2 + 2 * i) (cfg_speed cfg))).
  apply list_elem_of_In. eapply list_elem_of_lookup_2. exact Hmi.
Qed.

(** X3.  [createPlanet] touches nothing it did not create, except that the scene
    gets the new orbit-group as its last child: it uses the next
    [2 + 2 * moonConfigs.length] references, and every object the heap
    already held is as it was, the scene in all fields but [children]. *)
Theorem createPlanet_leaves_the_rest
    scene size color distance speed name cfgs h planets :
  wf_heap h -> is_Some (h_objects h !! scene) ->
  let r := createPlanet scene size color distance speed name cfgs (h, planets) in
  let h' := fst (snd r) in
  wf_heap h' /\
  h_next h' = (h_next h + 2 + 2 * length cfgs)%nat /\
  (forall k o, h_objects h !! k = Some o -> k <> scene -> h_objects h' !! k = Some o) /\
  children_of (h_objects h') scene =
    children_of (h_objects h) scene ++ [p_orbitGroup (fst r)] /\
  kind_of (h_objects h') scene = kind_of (h_objects h) scene /\
  parent_of (h_objects h') scene = parent_of (h_objects h) scene /\
  position_of (h_objects h') scene = position_of (h_objects h) scene /\
  rotation_of (h_objects h') scene = rotation_of (h_objects h) scene /\
  name_of (h_objects h') scene = name_of (h_objects h) scene.
Proof.
  intros Hwf [so Hsc] r h'.
  destruct (createPlanet_spec scene size color distance speed name cfgs h planets so
              Hwf Hsc)
    as (moons & h1 & E & Hn & Hwf' & Hs & Hgs & Hsc' & Hog & Hpm & Hk & Hmo).
  subst h' r. rewrite E. cbn [fst snd p_orbitGroup].
  split; [assumption|]. split; [assumption|]. split.
  { intros k o Ho Hne. rewrite Hk; [assumption|assumption|].
    by apply (wf_heap_lt h k o). }
  unfold children_of, kind_of, parent_of, position_of, rotation_of, name_of.
  rewrite Hsc', Hsc. cbn. repeat split; reflexivity.
Qed.

(** ** The pointer in normalised device coordinates *)

(** X4.  Lines 94-95 map the window to the square [-1, 1] x [-1, 1], the
    vertical axis pointing up: a pointer inside the window gives
    coordinates in that square, the top left corner gives (-1, 1), the
    bottom right corner (1, -1); and a click records the pointer whether or
    not it picks something. *)
Theorem setMouse_normalised clientX clientY st :
  0 < innerWidth st -> 0 < innerHeight st ->
  0 <= clientX <= innerWidth st -> 0 <= clientY <= innerHeight st ->
  let m := mouse (setMouse clientX clientY st) in
  mouse (onClick clientX clientY st) = m /\
  -1 <= v2_x m <= 1 /\ -1 <= v2_y m <= 1 /\
  (clientX == 0 -> v2_x m == -1) /\ (clientX == innerWidth st -> v2_x m == 1) /\
  (clientY == 0 -> v2_y m == 1) /\ (clientY == innerHeight st -> v2_y m == -1).
Proof.
  intros HW HH [Hx0 Hx1] [Hy0 Hy1] m.
  assert (0 <= clientX / innerWidth st <= 1) as [Ha Hb].
  { split; [apply Qle_shift_div_l|apply Qle_shift_div_r]; lra. }
  assert (0 <= clientY / innerHeight st <= 1) as [Hc Hd].
  { split; [apply Qle_shift_div_l|apply Qle_shift_div_r]; lra. }
  split.
  { subst m. unfold onClick. cbn. handler_cases. }
  subst m. cbn [mouse setMouse set_mouse v2_x v2_y innerWidth innerHeight].
  split; [lra|]. split; [lra|].
  split; [|split; [|split]]; intros E; rewrite E; field; lra.
Qed.

(** ** The window and what is sized after it *)

Lemma onClick_viewport x y st : viewport (onClick x y st) = viewport st.
Proof. unfold onClick, viewport. simpl. handler_cases. Qed.

Lemma onBack_viewport st : viewport (onBack st) = viewport st.
Proof. unfold onBack, viewport. simpl. handler_cases. Qed.

Lemma tick_viewport now input st : viewport (tick now input st) = viewport st.
Proof.
  unfold tick, controls_update, tick_follow, tick_animate, viewport. simpl.
  handler_cases.
Qed.

Lemma viewport_fields st st' :
  viewport st' = viewport st ->
  camera_aspect st' = camera_aspect st /\
  camera_projectionAspect st' = camera_projectionAspect st /\
  renderer_size st' = renderer_size st /\
  renderer_pixelRatio st' = renderer_pixelRatio st /\
  composer_size st' = composer_size st /\
  innerWidth st' = innerWidth st /\ innerHeight st' = innerHeight st.
Proof. unfold viewport. intros [= -> -> -> -> -> -> ->]. repeat split. Qed.

(** X5.  In every state of the page the camera's aspect (and the aspect its
    projection was computed from) is the ratio of the window size the
    script last read, the renderer and the composer have that size, and the
    pixel ratio is the one fixed at start-up, capped at 2. *)
Theorem viewport_in_step_with_window host evs :
  let st := run (main host) evs in
  camera_aspect st = innerWidth st / innerHeight st /\
  camera_projectionAspect st = innerWidth st / innerHeight st /\
  renderer_size st = (innerWidth st, innerHeight st) /\
  composer_size st = (innerWidth st, innerHeight st) /\
  renderer_pixelRatio st = Qmin (host_devicePixelRatio host) 2 /\
  renderer_pixelRatio st <= 2.
Proof.
  cbv zeta.
  assert (forall st st', viewport st' = viewport st ->
            (camera_aspect st = innerWidth st / innerHeight st /\
             camera_projectionAspect st = innerWidth st / innerHeight st /\
             renderer_size st = (innerWidth st, innerHeight st) /\
             composer_size st = (innerWidth st, innerHeight st) /\
             renderer_pixelRatio st = Qmin (host_devicePixelRatio host) 2) ->
            camera_aspect st' = innerWidth st' / innerHeight st' /\
            camera_projectionAspect st' = innerWidth st' / innerHeight st' /\
            renderer_size st' = (innerWidth st', innerHeight st') /\
            composer_size st' = (innerWidth st', innerHeight st') /\
            renderer_pixelRatio st' = Qmin (host_devicePixelRatio host) 2) as Hsame.
  { intros st st' E. apply viewport_fields in E.
    destruct E as (-> & -> & -> & -> & -> & -> & ->). auto. }
  assert (camera_aspect (run (main host) evs) =
            innerWidth (run (main host) evs) / innerHeight (run (main host) evs) /\
          camera_projectionAspect (run (main host) evs) =
            innerWidth (run (main host) evs) / innerHeight (run (main host) evs) /\
          renderer_size (run (main host) evs) =
            (innerWidth (run (main host) evs), innerHeight (run (main host) evs)) /\
          composer_size (run (main host) evs) =
            (innerWidth (run (main host) evs), innerHeight (run (main host) evs)) /\
          renderer_pixelRatio (run (main host) evs) =
            Qmin (host_devicePixelRatio host) 2) as H.
  { induction evs as [|ev evs IH] using rev_ind.
    - change (run (main host) []) with (main host). destruct host. vm_compute.
      repeat split.
    - rewrite run_snoc. generalize dependent (run (main host) evs). intros st IH.
      destruct ev as [x y| |now input|W H]; cbn [step].
      + exact (Hsame st _ (onClick_viewport x y st) IH).
      + destruct (backButton st) as [b|]; [|exact IH].
        destruct (click_listener b); [|exact IH].
        exact (Hsame st _ (onBack_viewport st) IH).
      + exact (Hsame st _ (tick_viewport now input st) IH).
      + destruct IH as (_ & _ & _ & _ & Hr). destruct st. cbn in *. subst.
        repeat split. }
  destruct H as (H1 & H2 & H3 & H4 & H5).
  rewrite H5. repeat split; try assumption. apply Q.le_min_r.
Qed.

(** ** What never changes, and who changes what *)

Lemma same_graph_position_of m m' id :
  same_graph m m' -> position_of m id = position_of m' id.
Proof.
  intros H. unfold position_of. destruct (m !! id) as [o|] eqn:E.
  - destruct (same_graph_Some _ _ _ _ H E) as (o' & -> & Hs).
    apply skeleton_fields in Hs. simpl. f_equal. tauto.
  - by rewrite (same_graph_None _ _ _ H E).
Qed.

(** X6.  After start-up nothing is added to the scene graph, removed from it or
    moved in it: in every state every reference is to the object it was
    built as, with the kind, parent, children, position and name it got;
    and no listener writes a rotation either, only [tick] does. *)
Theorem scene_graph_is_frozen host evs id :
  let m := objects (run (main host) evs) in
  let m0 := objects (main host) in
  (is_Some (m !! id) <-> is_Some (m0 !! id)) /\
  kind_of m id = kind_of m0 id /\
  parent_of m id = parent_of m0 id /\
  children_of m id = children_of m0 id /\
  position_of m id = position_of m0 id /\
  name_of m id = name_of m0 id /\
  (forall st x y W H,
     objects (step st (Click x y)) = objects st /\
     objects (step st BackClick) = objects st /\
     objects (step st (Resize W H)) = objects st).
Proof.
  intros m m0. pose proof (inv_graph _ (Inv_reachable host evs)) as Hg. fold m in Hg.
  subst m0. rewrite main_objects.
  split.
  { unfold is_Some. split; intros [o Ho].
    - destruct (same_graph_Some _ _ _ _ Hg Ho) as (o' & Ho' & _). eauto.
    - destruct (m !! id) as [o'|] eqn:E; [eauto|].
      rewrite (same_graph_None _ _ _ Hg E) in Ho. discriminate. }
  split; [by apply same_graph_kind_of|]. split; [by apply same_graph_parent_of|].
  split; [by apply same_graph_children_of|]. split; [by apply same_graph_position_of|].
  split; [by apply same_graph_name_of|].
  intros st x y W H. split; [|split]; by apply step_objects.
Qed.

(** X7.  The selection is never a dangling reference: whenever something is
    focused it is a mesh of the scene graph, of a planet or of a moon, and
    its world position can be computed (its parent chain ends at the
    scene). *)
Theorem selection_is_a_live_mesh host evs p :
  let st := run (main host) evs in
  focusedPlanet st = Some p ->
  In p (planet_meshes st ++ moon_meshes st) /\
  is_Mesh (objects st) p = true /\
  exists worldPos, getWorldPosition (objects st) p = Some worldPos.
Proof.
  intros st Hf. pose proof (Inv_reachable host evs) as HI. fold st in HI.
  pose proof (inv_focus _ HI p Hf) as Hp.
  split; [assumption|]. split; [|by apply Inv_getWorldPosition].
  rewrite (same_graph_is_Mesh _ _ p (inv_graph _ HI)).
  rewrite (Inv_planet_meshes st HI), (Inv_moon_meshes st HI) in Hp. cbn [app In] in Hp.
  repeat (destruct Hp as [<-|Hp]; [vm_compute; reflexivity|]). destruct Hp.
Qed.

(** ** The back element and the selection *)

(** X8.  The back element is shown exactly while something is focused: in every
    state, if something is focused its [display] is ["block"]; if nothing
    is, it is ["none"] or still what the document set and no back click has
    run yet. *)
Theorem back_element_shown_while_focused host evs b :
  let st := run (main host) evs in
  backButton st = Some b ->
  click_listener b = true /\
  match focusedPlanet st with
  | Some _ => style_display b = "block"%string
  | None => style_display b = "none"%string \/
            host_backButton host = Some (style_display b)
  end.
Proof.
  cbv zeta. revert b. induction evs as [|ev evs IH] using rev_ind; intros b.
  - change (run (main host) []) with (main host).
    rewrite main_backButton, main_focusedPlanet.
    destruct (host_backButton host) as [d|]; intros [= <-]. auto.
  - rewrite run_snoc. generalize dependent (run (main host) evs). intros st IH.
    destruct ev as [x y| |now input|W H]; cbn [step].
    + rewrite onClick_backButton, onClick_focusedPlanet.
      destruct (intersectObjects _ _ _) as [|i l]; [apply IH|].
      destruct (backButton st) as [b0|] eqn:Eb; [|discriminate].
      intros [= <-]. cbn. split; [|reflexivity]. by apply (IH b0).
    + destruct (backButton st) as [b0|] eqn:Eb; [|rewrite Eb; discriminate].
      destruct (click_listener b0) eqn:El.
      * destruct (onBack_effect st b0 Eb) as (-> & -> & _).
        intros [= <-]. cbn. auto.
      * rewrite Eb. intros [= <-]. destruct (IH b0 eq_refl) as [Hl _]. congruence.
    + rewrite tick_backButton, tick_focusedPlanet. apply IH.
    + apply IH.
Qed.

(** ** The time scale over frames *)

(** X9.  The smoothing never overshoots: in a frame run while something is
    focused the time scale does not grow and stays at or above 0.1; in a
    frame run while nothing is focused it does not shrink and stays at or
    below 1. *)
Theorem timeScale_moves_toward_target host evs now input :
  let st := run (main host) evs in
  let st' := tick now input st in
  match focusedPlanet st with
  | Some _ => 0.1 <= timeScale st' <= timeScale st
  | None => timeScale st <= timeScale st' <= 1
  end.
Proof.
  cbv zeta. pose proof (inv_timeScale _ (Inv_reachable host evs)) as H.
  rewrite tick_timeScale. unfold targetScale, lerp.
  destruct (focusedPlanet (run (main host) evs)); lra.
Qed.

Lemma run_frames_cons st f l :
  run st (frames_of (f :: l)) = run (tick (fst f) (snd f) st) (frames_of l).
Proof. reflexivity. Qed.

(** X10.  Over [n] frames in a row, with no other event in between, the selection
    stays what it is and the distance of the time scale to its target is
    multiplied by 0.95 to the power [n]. *)
Theorem timeScale_after_frames l : forall st,
  let st' := run st (frames_of l) in
  focusedPlanet st' = focusedPlanet st /\
  timeScale st' - targetScale st ==
    0.95 ^ Z.of_nat (length l) * (timeScale st - targetScale st).
Proof.
  induction l as [|f l IH]; intros st; cbv zeta.
  - split; [reflexivity|]. change (run st (frames_of [])) with st.
    change (0.95 ^ Z.of_nat (length [])) with 1. ring.
  - rewrite run_frames_cons.
    destruct (IH (tick (fst f) (snd f) st)) as [Hf Ht].
    rewrite tick_focusedPlanet in Hf. split; [exact Hf|].
    assert (targetScale (tick (fst f) (snd f) st) = targetScale st) as Etgt
      by (unfold targetScale; by rewrite tick_focusedPlanet).
    rewrite Etgt, tick_timeScale in Ht. rewrite Ht.
    cbn [length]. rewrite Nat2Z.inj_succ, <- Z.add_1_r.
    rewrite Qpower_plus by (intros E; discriminate E).
    change (0.95 ^ 1) with 0.95. unfold lerp. ring.
Qed.

(** ** The star field and the orbits, frame after frame *)

Lemma tick_starMaterial_size now input st :
  starMaterial_size (tick now input st) = 0.07 + Math_sin (now * 0.001 * 3) * 0.01.
Proof.
  unfold tick, controls_update, tick_follow, tick_animate. simpl. handler_cases.
Qed.

(** X11.  In every frame the star field turns by [0.0001 * timeScale], between
    0.00001 and 0.0001 whatever is focused, so it never stands still; and
    the size of the star sprites depends on the clock alone: it is
    [0.07 + sin(3 * time) * 0.01], between 0.06 and 0.08 for a sine between
    -1 and 1. *)
Theorem star_field_frame host evs now input :
  let st := run (main host) evs in
  let st' := tick now input st in
  -1 <= Math_sin (now * 0.001 * 3) <= 1 ->
  (exists r, rotation_of (objects st) (starDust st) = Some r /\
     rotation_of (objects st') (starDust st') = Some (r + 0.0001 * timeScale st')) /\
  0.00001 <= 0.0001 * timeScale st' <= 0.0001 /\
  starMaterial_size st' = 0.07 + Math_sin (now * 0.001 * 3) * 0.01 /\
  0.06 <= starMaterial_size st' <= 0.08.
Proof.
  intros st st' Hsin. pose proof (Inv_reachable host evs) as HI. fold st in HI.
  pose proof (inv_timeScale _ (Inv_tick now input st HI)) as Hts. fold st' in Hts.
  split; [|split; [lra|split]].
  - subst st'. rewrite tick_starDust, tick_objects.
    generalize (timeScale (tick now input st)) as ts. intros ts.
    rewrite (inv_starDust _ HI), (inv_planets _ HI). unfold planets_built.
    cbn [fold_left tick_planet p_orbitGroup p_speed p_planet p_moons m_group m_speed].
    repeat first [rewrite rotation_of_rotateY_ne by lia | rewrite rotation_of_rotateY_eq].
    destruct (Inv_rotation_of st 5 HI ltac:(lia)) as [r Hr].
    exists r. rewrite Hr. split; reflexivity.
  - apply tick_starMaterial_size.
  - subst st'. rewrite tick_starMaterial_size. lra.
Qed.

Lemma planets_built_speed p :
  In p planets_built -> 0 < p_speed p /\ (p_orbitGroup p < 20)%nat.
Proof.
  unfold planets_built. cbn [In].
  intros [<-|[<-|[<-|[]]]]; cbn [p_speed p_orbitGroup]; split; (reflexivity || lia).
Qed.

(** Over a run, the rotation of a planet's orbit-group grows in every frame
    by at least a tenth of the planet's speed and at most by its speed. *)
Lemma orbit_rotation_run evs : forall st p,
  Inv st -> In p (planets st) ->
  exists r r', rotation_of (objects st) (p_orbitGroup p) = Some r /\
    rotation_of (objects (run st evs)) (p_orbitGroup p) = Some r' /\
    r + 0.1 * p_speed p * inject_Z (Z.of_nat (frames evs)) <= r' /\
    r' <= r + p_speed p * inject_Z (Z.of_nat (frames evs)).
Proof.
  induction evs as [|ev evs IH]; intros st p HI Hp.
  - assert (In p planets_built) as Hpb by (by rewrite <- (inv_planets _ HI)).
    destruct (planets_built_speed p Hpb) as [_ Hlt].
    destruct (Inv_rotation_of st _ HI Hlt) as [r Hr].
    exists r, r. split; [assumption|]. split; [assumption|].
    cbn [frames]. change (inject_Z (Z.of_nat 0)) with 0. lra.
  - change (run st (ev :: evs)) with (run (step st ev) evs).
    assert (In p planets_built) as Hpb by (by rewrite <- (inv_planets _ HI)).
    destruct (planets_built_speed p Hpb) as [Hpos _].
    assert (In p (planets (step st ev))) as Hp'.
    { by rewrite (inv_planets _ (Inv_step st ev HI)). }
    destruct (IH (step st ev) p (Inv_step st ev HI) Hp') as (r1 & r' & Hr1 & Hr' & Hlo & Hhi).
    assert (0 <= inject_Z (Z.of_nat (frames evs))) as Hn.
    { change 0 with (inject_Z 0). rewrite <- Zle_Qle. lia. }
    destruct (is_Frame ev) eqn:Ef.
    + destruct ev as [| |now input|]; try discriminate.
      destruct (tick_rotations st now input p HI Hp) as ((r & Hr & Hr2) & _).
      change (step st (Frame now input)) with (tick now input st) in Hr1.
      rewrite Hr2 in Hr1. injection Hr1 as <-.
      pose proof (inv_timeScale _ (Inv_tick now input st HI)) as Hts.
      exists r, r'. split; [assumption|]. split; [assumption|].
      cbn [frames]. rewrite Nat2Z.inj_succ. unfold Z.succ.
      rewrite inject_Z_plus. change (inject_Z 1) with 1.
      set (n := inject_Z (Z.of_nat (frames evs))) in *.
      set (ts := timeScale (tick now input st)) in *.
      set (s := p_speed p) in *.
      assert (0.1 * s <= s * ts) by nra.
      assert (s * ts <= s) by nra.
      split; nra.
    + rewrite (step_objects st ev Ef) in Hr1.
      exists r1, r'. split; [assumption|]. split; [assumption|].
      destruct ev; try discriminate; cbn [frames]; split; assumption.
Qed.

(** X12.  No planet ever stalls or runs backwards, focused or not: over any run
    of events the rotation of its orbit-group has grown by at least
    [0.1 * speed] and at most [speed] per frame, and the speed is
    positive. *)
Theorem orbit_never_stalls host evs evs' p :
  let st := run (main host) evs in
  In p (planets st) ->
  0 < p_speed p /\
  exists r r', rotation_of (objects st) (p_orbitGroup p) = Some r /\
    rotation_of (objects (run st evs')) (p_orbitGroup p) = Some r' /\
    r + 0.1 * p_speed p * inject_Z (Z.of_nat (frames evs')) <= r' /\
    r' <= r + p_speed p * inject_Z (Z.of_nat (frames evs')).
Proof.
  intros st Hp. pose proof (Inv_reachable host evs) as HI. fold st in HI.
  split.
  - apply planets_built_speed. by rewrite <- (inv_planets _ HI).
  - by apply orbit_rotation_run.
Qed.

(** ** Where a planet is *)

(** The world position of an object two levels below an unrotated root at
    the origin: its own position turned by the rotation of its parent. *)
Lemma getWorldPosition_two_levels m sc og pm d theta :
  (3 <= size m)%nat ->
  is_Some (m !! sc) -> parent_of m sc = None ->
  parent_of m og = Some sc -> parent_of m pm = Some og ->
  position_of m sc = Some Vector3_zero -> position_of m og = Some Vector3_zero ->
  position_of m pm = Some (mkVector3 d 0 0) ->
  rotation_of m sc = Some 0 -> rotation_of m og = Some theta ->
  Math_cos 0 == 1 -> Math_sin 0 == 0 ->
  exists worldPos, getWorldPosition m pm = Some worldPos /\
    v_x worldPos == d * Math_cos theta /\
    v_y worldPos == 0 /\
    v_z worldPos == - (d * Math_sin theta).
Proof.
  intros Hsize [osc Hsc] Hpsc Hpog Hppm Hqsc Hqog Hqpm Hrsc Hrog Hc0 Hs0.
  unfold parent_of, position_of, rotation_of in *. rewrite Hsc in *.
  destruct (m !! og) as [oog|] eqn:Eog; [|discriminate].
  destruct (m !! pm) as [opm|] eqn:Epm; [|discriminate].
  cbn in Hqsc, Hqog, Hqpm, Hrsc, Hrog.
  injection Hqsc as Hqsc. injection Hqog as Hqog. injection Hqpm as Hqpm.
  injection Hrsc as Hrsc. injection Hrog as Hrog.
  unfold getWorldPosition.
  destruct (size m) as [|[|[|n]]]; try lia.
  cbn [updateWorldMatrix]. rewrite Epm, Hppm, Eog, Hpog, Hsc, Hpsc.
  eexists. split; [reflexivity|].
  unfold updateMatrix. rewrite Hqsc, Hqog, Hqpm, Hrsc, Hrog.
  cbn [setFromMatrixPosition multiplyMatrices n11 n12 n13 n14 n21 n22 n23 n24
         n31 n32 n33 n34 v_x v_y v_z Vector3_zero].
  rewrite Hc0, Hs0. split; [ring|]. split; ring.
Qed.

Lemma scene_unrotated_step st ev :
  Inv st -> rotation_of (objects st) 0 = Some 0 ->
  rotation_of (objects (step st ev)) 0 = Some 0.
Proof.
  intros HI H0. destruct (is_Frame ev) eqn:Ef.
  - destruct ev as [| |now input|]; try discriminate. cbn [step].
    rewrite tick_objects.
    generalize (timeScale (tick now input st)) as ts. intros ts.
    rewrite (inv_starDust _ HI), (inv_planets _ HI). unfold planets_built.
    cbn [fold_left tick_planet p_orbitGroup p_speed p_planet p_moons m_group m_speed].
    repeat (rewrite rotation_of_rotateY_ne by lia). exact H0.
  - by rewrite step_objects.
Qed.

(** The scene itself is never rotated. *)
Lemma scene_unrotated host evs :
  rotation_of (objects (run (main host) evs)) 0 = Some 0.
Proof.
  induction evs as [|ev evs IH] using rev_ind.
  - change (run (main host) []) with (main host). rewrite main_objects.
    vm_compute. reflexivity.
  - rewrite run_snoc. apply scene_unrotated_step; [apply Inv_reachable|assumption].
Qed.

(** X13.  A planet moves on the circle [createPlanet] put it on: in every state
    the world position of a planet mesh is its start position (d, 0, 0)
    turned about the vertical axis by the rotation of its orbit-group, so it
    stays in the plane of the sun at the distance d from it. *)
Theorem planet_moves_on_its_circle host evs p :
  let st := run (main host) evs in
  Math_cos 0 == 1 -> Math_sin 0 == 0 ->
  In p (planets st) ->
  exists theta d worldPos,
    rotation_of (objects st) (p_orbitGroup p) = Some theta /\
    position_of (objects (main host)) (p_planet p) = Some (mkVector3 d 0 0) /\
    getWorldPosition (objects st) (p_planet p) = Some worldPos /\
    v_x worldPos == d * Math_cos theta /\
    v_y worldPos == 0 /\
    v_z worldPos == - (d * Math_sin theta) /\
    (Math_sin theta * Math_sin theta + Math_cos theta * Math_cos theta == 1 ->
     v_x worldPos * v_x worldPos + v_z worldPos * v_z worldPos == d * d).
Proof.
  intros st Hc0 Hs0 Hp. pose proof (Inv_reachable host evs) as HI. fold st in HI.
  pose proof (inv_graph _ HI) as Hg.
  assert (In p planets_built) as Hpb by (by rewrite <- (inv_planets _ HI)).
  destruct (planets_built_speed p Hpb) as [_ Hlt].
  destruct (Inv_rotation_of st _ HI Hlt) as [theta Htheta].
  assert (exists d, position_of scene_graph (p_planet p) = Some (mkVector3 d 0 0) /\
            parent_of scene_graph (p_planet p) = Some (p_orbitGroup p) /\
            parent_of scene_graph (p_orbitGroup p) = Some 0%nat /\
            position_of scene_graph (p_orbitGroup p) = Some Vector3_zero)
    as (d & Hd & Hpp & Hpo & Hqo).
  { unfold planets_built in Hpb. cbn [In] in Hpb.
    destruct Hpb as [<-|[<-|[<-|[]]]]; cbn [p_planet p_orbitGroup];
      match goal with
      | |- exists d, position_of scene_graph ?pm = _ /\ _ =>
          let v := eval vm_compute in (position_of scene_graph pm) in
          match v with Some (mkVector3 ?d _ _) => exists d end
      end;
      do 3 (split; [vm_compute; reflexivity|]); vm_compute; reflexivity. }
  destruct (getWorldPosition_two_levels (objects st) 0 (p_orbitGroup p) (p_planet p)
              d theta) as (worldPos & Hw & Hx & Hy & Hz); try assumption.
  - rewrite (same_graph_size _ _ Hg). vm_compute. lia.
  - destruct (Inv_rotation_of st 0 HI ltac:(lia)) as [r Hr].
    unfold rotation_of in Hr. destruct (objects st !! 0%nat); [eauto|discriminate].
  - rewrite (same_graph_parent_of _ _ _ Hg). vm_compute. reflexivity.
  - by rewrite (same_graph_parent_of _ _ _ Hg).
  - by rewrite (same_graph_parent_of _ _ _ Hg).
  - rewrite (same_graph_position_of _ _ _ Hg). vm_compute. reflexivity.
  - by rewrite (same_graph_position_of _ _ _ Hg).
  - by rewrite (same_graph_position_of _ _ _ Hg).
  - apply scene_unrotated.
  - exists theta, d, worldPos. rewrite main_objects.
    do 6 (split; [assumption|]).
    intros Htrig. rewrite Hx, Hz.
    transitivity (d * d * (Math_sin theta * Math_sin theta +
                           Math_cos theta * Math_cos theta)); [ring|].
    rewrite Htrig. ring.
Qed.

(** ** Clicks that hit and clicks that miss *)

(** X14.  A click whose ray meets some planet mesh or moon mesh selects a mesh
    whose intersection is a nearest one among all of theirs, and puts the
    camera at that mesh's world position plus (5, 3, 5); the time scale and
    the scene graph are as before. *)
Theorem click_selects_a_nearest_hit host evs x y :
  let st := run (main host) evs in
  let ray := setMouse x y st in
  let st' := onClick x y st in
  (exists k d, In k (planet_meshes st ++ moon_meshes st) /\
     In d (Object3D_raycast ray k)) ->
  exists i worldPos,
    focusedPlanet st' = Some (object i) /\
    In (object i) (planet_meshes st ++ moon_meshes st) /\
    In (distance i) (Object3D_raycast ray (object i)) /\
    (forall k d, In k (planet_meshes st ++ moon_meshes st) ->
       In d (Object3D_raycast ray k) -> distance i <= d) /\
    getWorldPosition (objects st) (object i) = Some worldPos /\
    camera_position st' = Vector3_add worldPos (mkVector3 5 3 5) /\
    timeScale st' = timeScale st /\ objects st' = objects st.
Proof.
  intros st ray st' (k & d & Hk & Hd). subst ray.
  pose proof (Inv_reachable host evs) as HI. fold st in HI.
  destruct (intersectObjects (setMouse x y st) (planet_meshes st) true) as [|i l] eqn:E.
  { rewrite (pick_none x y st HI E k Hk) in Hd. destruct Hd. }
  destruct (pick_nearest x y st i l HI E) as (Hi & Hid & Hmin).
  destruct (Inv_getWorldPosition st HI (object i) Hi) as [worldPos Hw].
  exists i, worldPos. subst st'.
  split; [by rewrite onClick_focusedPlanet, E|].
  do 4 (split; [assumption|]).
  split; [by apply (onClick_camera_position x y st i l)|].
  split; [apply onClick_timeScale|apply onClick_objects].
Qed.

(** X15.  A click whose ray meets no planet mesh and no moon mesh (the sun, the
    star field or nothing at all) only records the pointer: the state after
    it is the state before it with [mouse] set. *)
Theorem click_that_misses_only_moves_the_mouse host evs x y :
  let st := run (main host) evs in
  (forall k, In k (planet_meshes st ++ moon_meshes st) ->
     Object3D_raycast (setMouse x y st) k = []) ->
  onClick x y st = setMouse x y st.
Proof.
  intros st Hmiss. pose proof (Inv_reachable host evs) as HI. fold st in HI.
  pose proof (pick_off_target x y st HI Hmiss) as E.
  unfold onClick. unfold planet_meshes in E.
  change (planets (setMouse x y st)) with (planets st). by rewrite E.
Qed.

(** ** Resizing and the animation *)


(** ** The star field *)

Section StarFieldFacts.

Variable Math_PI : Q.
Variable Math_acos : Q -> Q.
Variable Math_pow : Q -> Q -> Q.
Variable Math_random : nat -> Q.

Local Abbreviation loop := (star_loop Math_PI Math_acos Math_pow Math_random).
Local Abbreviation radius := (star_radius Math_pow Math_random).
Local Abbreviation phi := (star_phi Math_acos Math_random).
Local Abbreviation theta := (star_theta Math_PI Math_random).

Lemma star_loop_spec n : forall i a,
  ((i + n) * 3 <= length a)%nat ->
  exists a',
    loop n i (3 * i) a = ((3 * (i + n))%nat, a') /\
    length a' = length a /\
    (forall k, (k < i * 3 \/ (i + n) * 3 <= k)%nat -> a' !! k = a !! k) /\
    (forall j, (i <= j < i + n)%nat ->
       a' !! (j * 3)%nat =
         Some (radius j * Math_sin (phi j) * Math_cos (theta j)) /\
       a' !! (j * 3 + 1)%nat =
         Some (radius j * Math_sin (phi j) * Math_sin (theta j)) /\
       a' !! (j * 3 + 2)%nat = Some (radius j * Math_cos (phi j))).
Proof.
  induction n as [|n IH]; intros i a Hlen.
  - exists a. cbn [star_loop]. rewrite Nat.add_0_r.
    split; [reflexivity|]. split; [reflexivity|]. split; [reflexivity|].
    intros j Hj. lia.
  - cbn [star_loop star_body].
    set (a1 := <[(i * 3 + 2)%nat := _]> (<[(i * 3 + 1)%nat := _]> (<[(i * 3)%nat := _]> a))).
    assert (length a1 = length a) as Hl1 by (subst a1; by rewrite !length_insert).
    destruct (IH (S i) a1) as (a' & E & Hl & Hout & Hin); [lia|].
    replace (S (S (S (3 * i)))) with (3 * S i)%nat by lia.
    exists a'. rewrite E. split; [f_equal; lia|]. split; [congruence|]. split.
    + intros k Hk. rewrite Hout by lia. subst a1.
      rewrite !list_lookup_insert_ne by lia. reflexivity.
    + intros j Hj. destruct (Nat.eq_dec j i) as [->|Hne]; [|apply Hin; lia].
      rewrite !Hout by lia. subst a1.
      unfold star_radius, star_phi, star_theta.
      replace (3 * i + 1)%nat with (S (3 * i)) by lia.
      replace (3 * i + 2)%nat with (S (S (3 * i))) by lia.
      split; [|split].
      * rewrite !list_lookup_insert_ne by lia.
        rewrite list_lookup_insert_eq by lia. reflexivity.
      * rewrite list_lookup_insert_ne by lia.
        rewrite list_lookup_insert_eq by (rewrite length_insert; lia). reflexivity.
      * rewrite list_lookup_insert_eq by (rewrite !length_insert; lia). reflexivity.
Qed.

Lemma fill_starPositions_spec count j :
  (j < count)%nat ->
  let r := fill_starPositions Math_PI Math_acos Math_pow Math_random count in
  fst r = (3 * count)%nat /\
  length (snd r) = (count * 3)%nat /\
  snd r !! (j * 3)%nat = Some (radius j * Math_sin (phi j) * Math_cos (theta j)) /\
  snd r !! (j * 3 + 1)%nat = Some (radius j * Math_sin (phi j) * Math_sin (theta j)) /\
  snd r !! (j * 3 + 2)%nat = Some (radius j * Math_cos (phi j)).
Proof.
  intros Hj r. subst r. unfold fill_starPositions.
  destruct (star_loop_spec count 0 (replicate (count * 3) 0)) as (a' & E & Hl & _ & Hin).
  { rewrite length_replicate. lia. }
  change (3 * 0)%nat with 0%nat in E. rewrite E. cbn [fst snd].
  rewrite length_replicate in Hl.
  split; [reflexivity|]. split; [assumption|]. apply Hin. lia.
Qed.

(** X17.  The loop of lines 43-48 fills the whole array and nothing else: the
    array keeps its length [starCount * 3], [Math.random()] is called three
    times per star, and the three entries of every star [j] below
    [starCount] are the Cartesian coordinates of the point with the radius
    and the two angles drawn for it. *)
Theorem starPositions_filled j :
  (j < starCount)%nat ->
  fst (fill_starPositions Math_PI Math_acos Math_pow Math_random starCount) =
    (3 * starCount)%nat /\
  length (starPositions Math_PI Math_acos Math_pow Math_random) = (starCount * 3)%nat /\
  starPositions Math_PI Math_acos Math_pow Math_random !! (j * 3)%nat =
    Some (radius j * Math_sin (phi j) * Math_cos (theta j)) /\
  starPositions Math_PI Math_acos Math_pow Math_random !! (j * 3 + 1)%nat =
    Some (radius j * Math_sin (phi j) * Math_sin (theta j)) /\
  starPositions Math_PI Math_acos Math_pow Math_random !! (j * 3 + 2)%nat =
    Some (radius j * Math_cos (phi j)).
Proof. intros Hj. exact (fill_starPositions_spec starCount j Hj). Qed.

(** X18.  Every star lies in the ball of radius 100 around the origin: for a sine
    and cosine with [sin^2 + cos^2 = 1], a [Math.pow] that maps [0, 1) into
    [0, 1] and a [Math.random] in [0, 1), the squares of the three
    coordinates of a star add up to the square of its radius, which is
    between 0 and 100. *)
Theorem stars_within_radius_100 j :
  (forall a, Math_sin a * Math_sin a + Math_cos a * Math_cos a == 1) ->
  (forall u, 0 <= u < 1 -> 0 <= Math_pow u 0.9 <= 1) ->
  (forall k, 0 <= Math_random k < 1) ->
  (j < starCount)%nat ->
  exists x y z,
    starPositions Math_PI Math_acos Math_pow Math_random !! (j * 3)%nat = Some x /\
    starPositions Math_PI Math_acos Math_pow Math_random !! (j * 3 + 1)%nat = Some y /\
    starPositions Math_PI Math_acos Math_pow Math_random !! (j * 3 + 2)%nat = Some z /\
    x * x + y * y + z * z == radius j * radius j /\
    0 <= radius j <= 100 /\
    x * x + y * y + z * z <= 100 * 100.
Proof.
  intros Htrig Hpow Hrnd Hj.
  destruct (fill_starPositions_spec starCount j Hj) as (_ & _ & Hx & Hy & Hz).
  eexists _, _, _. split; [exact Hx|]. split; [exact Hy|]. split; [exact Hz|].
  assert (0 <= radius j <= 100) as Hr.
  { unfold star_radius. pose proof (Hpow _ (Hrnd (3 * j + 2)%nat)). lra. }
  assert (radius j * Math_sin (phi j) * Math_cos (theta j) *
            (radius j * Math_sin (phi j) * Math_cos (theta j)) +
          radius j * Math_sin (phi j) * Math_sin (theta j) *
            (radius j * Math_sin (phi j) * Math_sin (theta j)) +
          radius j * Math_cos (phi j) * (radius j * Math_cos (phi j)) ==
          radius j * radius j) as Hsq.
  { transitivity
      (radius j * radius j *
         (Math_sin (phi j) * Math_sin (phi j) *
            (Math_sin (theta j) * Math_sin (theta j) +
             Math_cos (theta j) * Math_cos (theta j)) +
          Math_cos (phi j) * Math_cos (phi j))); [ring|].
    rewrite (Htrig (theta j)), Qmult_1_r, (Htrig (phi j)). ring. }
  split; [exact Hsq|]. split; [exact Hr|].
  rewrite Hsq. nra.
Qed.

End StarFieldFacts.

(** ** What the raycaster returns *)

Lemma sort_insert_Permutation a l : sort_insert a l ≡ₚ a :: l.
Proof.
  induction l as [|b l IH]; simpl; [reflexivity|].
  destruct (ascSort a b); [reflexivity|].
  rewrite IH. apply Permutation_swap.
Qed.

Lemma sort_Permutation l : sort l ≡ₚ l.
Proof.
  induction l as [|a l IH]; simpl; [reflexivity|].
  rewrite sort_insert_Permutation. by rewrite IH.
Qed.

(** X19.  The array [intersectObjects] hands to the click listener, for any list
    of objects and either value of [recursive]: it is sorted by distance,
    nearest first, and it is a rearrangement of the intersections the
    geometric test reports for the objects of the walk, none lost and none
    twice. *)
Theorem intersectObjects_sorted_rearrangement st objs recursive :
  let hits :=
    flat_map (fun k => map (fun d => mkIntersection d k) (Object3D_raycast st k))
      (flat_map (tested (size (objects st)) (objects st) recursive) objs) in
  ascending (intersectObjects st objs recursive) /\
  intersectObjects st objs recursive ≡ₚ hits /\
  length (intersectObjects st objs recursive) = length hits /\
  (hits = [] <-> intersectObjects st objs recursive = []).
Proof.
  intros hits.
  assert (intersectObjects st objs recursive ≡ₚ hits) as HP.
  { rewrite intersectObjects_tested. apply sort_Permutation. }
  split; [apply ascending_sort|]. split; [exact HP|].
  split; [by rewrite HP|].
  split; intros E.
  - apply Permutation_nil_r. by rewrite <- E, HP.
  - apply Permutation_nil_r. by rewrite <- E, HP.
Qed.

(** ** The back listener *)

(** X20.  A click on the back element is a run of its listener followed,
    as the event bubbles, by a run of the click listener of [window] at
    the same point.  It always stores the pointer in [mouse] and leaves
    the scene graph and the time scale as they are.  When the ray through
    the point meets no planet mesh and no moon mesh, the camera stays where
    it is and, the document having the element, the selection is cleared,
    the element hidden and the target of the controls reset.  When the ray
    meets one, the page is focused again at once, on a mesh the ray meets,
    and the element is shown. *)
Theorem click_on_back_bubbles host evs x y :
  let st := run (main host) evs in
  let st1 := step st BackClick in
  let st' := run st (click_on_back x y) in
  st' = onClick x y st1 /\
  mouse st' = mouse (setMouse x y st) /\
  objects st' = objects st /\
  timeScale st' = timeScale st /\
  ((forall k, In k (planet_meshes st ++ moon_meshes st) ->
      Object3D_raycast (setMouse x y st1) k = []) ->
   camera_position st' = camera_position st /\
   forall b, backButton st = Some b ->
     focusedPlanet st' = None /\
     backButton st' = Some (mkHTMLElement "none" true) /\
     controls_target st' = mkVector3 0 0 0) /\
  ((exists k d, In k (planet_meshes st ++ moon_meshes st) /\
      In d (Object3D_raycast (setMouse x y st1) k)) ->
   exists p, focusedPlanet st' = Some p /\
     In p (planet_meshes st ++ moon_meshes st) /\
     (exists d, In d (Object3D_raycast (setMouse x y st1) p)) /\
     forall b, backButton st = Some b ->
       backButton st' = Some (mkHTMLElement "block" true)).
Proof.
  intros st st1 st'.
  pose proof (Inv_reachable host evs) as HI. fold st in HI.
  pose proof (Inv_step st BackClick HI) as HI1. fold st1 in HI1.
  destruct (back_listener_alone st) as (Hc & Ht & Ho & _ & Hm & Hv & _).
  fold st1 in Hc, Ht, Ho, Hm, Hv.
  assert (planet_meshes st1 ++ moon_meshes st1 = planet_meshes st ++ moon_meshes st)
    as Hmeshes.
  { rewrite (Inv_planet_meshes _ HI1), (Inv_moon_meshes _ HI1).
    by rewrite (Inv_planet_meshes _ HI), (Inv_moon_meshes _ HI). }
  assert (st' = onClick x y st1) as E by reflexivity.
  split; [exact E|]. rewrite E.
  split.
  { destruct (viewport_fields _ _ Hv) as (_ & _ & _ & _ & _ & HW & HH).
    transitivity (mouse (setMouse x y st1)).
    - unfold onClick. cbn. handler_cases.
    - cbn [mouse setMouse set_mouse v2_x v2_y innerWidth innerHeight].
      by rewrite HW, HH. }
  split; [by rewrite onClick_objects|].
  split; [by rewrite onClick_timeScale|].
  split.
  - intros Hmiss. rewrite <- Hmeshes in Hmiss.
    rewrite (onClick_miss x y st1 HI1 Hmiss).
    split; [exact Hc|]. intros b Eb.
    pose proof (inv_listener _ HI b Eb) as Hl.
    assert (st1 = onBack st) as E1 by (subst st1; cbn [step]; by rewrite Eb, Hl).
    destruct (onBack_effect st b Eb) as (H1 & H2 & H3). rewrite Hl in H2.
    rewrite E1. split; [exact H1|]. split; [exact H2|exact H3].
  - intros (k & d & Hk & Hd). rewrite <- Hmeshes in Hk.
    destruct (intersectObjects (setMouse x y st1) (planet_meshes st1) true)
      as [|i l] eqn:Ei.
    + rewrite (pick_none x y st1 HI1 Ei k Hk) in Hd. destruct Hd.
    + destruct (pick_nearest x y st1 i l HI1 Ei) as (Hi & Hid & _).
      exists (object i). split; [by rewrite onClick_focusedPlanet, Ei|].
      split; [by rewrite <- Hmeshes|]. split; [eauto|].
      intros b Eb. pose proof (inv_listener _ HI b Eb) as Hl.
      assert (st1 = onBack st) as E1 by (subst st1; cbn [step]; by rewrite Eb, Hl).
      destruct (onBack_effect st b Eb) as (_ & H2 & _).
      rewrite onClick_backButton, Ei. rewrite E1, H2. cbn [click_listener].
      by rewrite Hl.
Qed.
End Page.

(** ** The statements at concrete inputs *)

Lemma frame_advances_rotations_witness :
  let st := run sin_taylor cos_taylor ray_at_Earth unit no_gesture
              (main host_with_back) [] in
  let st' := tick sin_taylor cos_taylor unit no_gesture 0 tt st in
  In planet_Earth (planets st) /\
  exists r, rotation_of (objects st) (p_orbitGroup planet_Earth) = Some r /\
    rotation_of (objects st') (p_orbitGroup planet_Earth) =
    Some (r + p_speed planet_Earth * timeScale st').
Proof.
  intros st st'.
  assert (In planet_Earth (planets st)) as H by (vm_compute; right; left; reflexivity).
  split; [exact H|].
  exact (proj1 (frame_advances_rotations sin_taylor cos_taylor ray_at_Earth
                  unit no_gesture host_with_back [] 0 tt planet_Earth H)).
Defined.

Lemma click_Earth_then_back_witness :
  let st := run sin_taylor cos_taylor ray_toward_594_347 unit no_gesture
              (main host_with_back) [Frame unit 0 tt] in
  let st' := step sin_taylor cos_taylor ray_toward_594_347 unit no_gesture
               st (Click unit 594 347) in
  let st2 := run sin_taylor cos_taylor ray_toward_594_347 unit no_gesture
               st' [Frame unit 16 tt] in
  let st3 := run sin_taylor cos_taylor ray_toward_594_347 unit no_gesture
               st2 (click_on_back unit 40 30) in
  name_of (objects st) 11 = Some "Earth"%string /\
  backButton st = Some (mkHTMLElement "none" true) /\
  focusedPlanet st' = Some 11%nat /\
  backButton st' = Some (mkHTMLElement "block" true) /\
  focusedPlanet st3 = None /\
  backButton st3 = Some (mkHTMLElement "none" true) /\
  controls_target st3 = mkVector3 0 0 0.
Proof.
  intros st st' st2 st3.
  assert (name_of (objects st) 11 = Some "Earth"%string) as Hname
    by (vm_compute; reflexivity).
  assert (backButton st = Some (mkHTMLElement "none" true)) as Hb
    by (vm_compute; reflexivity).
  assert (exists d, In d (ray_toward_594_347 (setMouse 594 347 st) 11) /\
            forall k d', In k (planet_meshes st ++ moon_meshes st) -> k <> 11%nat ->
              In d' (ray_toward_594_347 (setMouse 594 347 st) k) -> d < d') as Hhit.
  { exists 45.45. split; [vm_compute; left; reflexivity|].
    assert (planet_meshes st ++ moon_meshes st = [7; 11; 17; 9; 13; 15; 19]%nat) as E
      by (vm_compute; reflexivity).
    rewrite E. intros k d' Hk Hne.
    repeat (destruct Hk as [<-|Hk];
            [try (exfalso; apply Hne; reflexivity); vm_compute; intros []|]).
    destruct Hk. }
  assert (forall k,
            In k (planet_meshes (run sin_taylor cos_taylor ray_toward_594_347 unit
                                   no_gesture st' [Frame unit 16 tt]) ++
                  moon_meshes (run sin_taylor cos_taylor ray_toward_594_347 unit
                                 no_gesture st' [Frame unit 16 tt])) ->
            ray_toward_594_347
              (setMouse 40 30
                 (step sin_taylor cos_taylor ray_toward_594_347 unit no_gesture
                    (run sin_taylor cos_taylor ray_toward_594_347 unit no_gesture
                       st' [Frame unit 16 tt]) (BackClick unit))) k = []) as Hmiss.
  { assert (planet_meshes (run sin_taylor cos_taylor ray_toward_594_347 unit
                             no_gesture st' [Frame unit 16 tt]) ++
            moon_meshes (run sin_taylor cos_taylor ray_toward_594_347 unit
                           no_gesture st' [Frame unit 16 tt]) =
            [7; 11; 17; 9; 13; 15; 19]%nat) as E by (vm_compute; reflexivity).
    rewrite E. intros k Hk.
    repeat (destruct Hk as [<-|Hk]; [vm_compute; reflexivity|]). destruct Hk. }
  destruct (click_Earth_then_back sin_taylor cos_taylor ray_toward_594_347
              unit no_gesture host_with_back [Frame unit 0 tt] 594 347 11%nat
              [Frame unit 16 tt] 40 30 Hname Hhit Hmiss) as (H1 & H2 & _ & H4).
  split; [exact Hname|]. split; [exact Hb|]. split; [exact H1|].
  split; [exact (H2 _ Hb)|]. exact (H4 _ Hb).
Defined.

Lemma target_follows_focus_witness :
  let st := run sin_taylor cos_taylor ray_at_Earth unit no_gesture
              (main host_with_back) [Click unit 594 347] in
  let st' := tick_follow sin_taylor cos_taylor (tick_animate sin_taylor 0 st) in
  focusedPlanet st = Some 11%nat /\
  exists worldPos,
    getWorldPosition sin_taylor cos_taylor (objects st') 11 = Some worldPos /\
    controls_target st' = worldPos /\
    controls_target (tick sin_taylor cos_taylor unit no_gesture 0 tt st) = worldPos.
Proof.
  intros st st'.
  assert (focusedPlanet st = Some 11%nat) as H by (vm_compute; reflexivity).
  split; [exact H|].
  destruct (target_follows_focus sin_taylor cos_taylor ray_at_Earth unit no_gesture
              host_with_back [Click unit 594 347] 0 tt 11%nat H)
    as (_ & _ & _ & worldPos & Hw & Ht & Hend).
  exists worldPos. split; [exact Hw|]. split; [exact Ht|].
  apply Hend. reflexivity.
Defined.

Lemma scene_graph_ownership_witness :
  let st := run sin_taylor cos_taylor ray_at_Earth unit no_gesture
              (main host_with_back) [Frame unit 0 tt] in
  In planet_Earth (planets st) /\
  children_of (objects st) (p_orbitGroup planet_Earth) = [p_planet planet_Earth].
Proof.
  intros st.
  assert (In planet_Earth (planets st)) as H by (vm_compute; right; left; reflexivity).
  split; [exact H|].
  exact (proj1 (proj2 (proj2 (proj2
    (scene_graph_ownership sin_taylor cos_taylor ray_at_Earth unit no_gesture
       host_with_back [Frame unit 0 tt] planet_Earth H))))).
Defined.

Lemma no_back_element_never_free_witness :
  let st := run sin_taylor cos_taylor ray_at_Earth unit no_gesture
              (main host_without_back) [Click unit 594 347] in
  let st' := run sin_taylor cos_taylor ray_at_Earth unit no_gesture
               st [BackClick unit; Frame unit 0 tt] in
  host_backButton host_without_back = None /\
  focusedPlanet st <> None /\
  focusedPlanet st' <> None /\
  targetScale st' = 0.1.
Proof.
  intros st st'.
  assert (focusedPlanet st <> None) as H by (vm_compute; discriminate).
  split; [reflexivity|]. split; [exact H|].
  exact (proj2 (proj2
    (no_back_element_never_free sin_taylor cos_taylor ray_at_Earth unit no_gesture
       host_without_back [Click unit 594 347] [BackClick unit; Frame unit 0 tt]
       eq_refl H))).
Defined.

(** C6, as the claim states it, fails.  With Earth focused and the time
    scale at 1, a frame takes the time scale to 0.955, which interpolation
    toward 0 (giving 0.95) does not. *)
Lemma timeScale_target_zero_counterexample :
  let st := run sin_taylor cos_taylor ray_at_Earth unit no_gesture
              (main host_with_back) [Click unit 594 347] in
  let st' := tick sin_taylor cos_taylor unit no_gesture 0 tt st in
  focusedPlanet st = Some 11%nat /\
  timeScale st == 1 /\
  timeScale st' == 0.955 /\
  ~ timeScale st' == lerp (timeScale st) 0 0.05.
Proof.
  vm_compute. repeat split; try reflexivity. intros H. discriminate H.
Qed.

(** C7, as the claim states it, fails.  In the scene [main] builds, the
    orbit-group of Earth does not own the orbit-group of Earth's first
    moon: its only child is the planet mesh, and the moon orbit-group's
    parent is that mesh. *)
Lemma orbitGroup_owns_moonOrbit_counterexample :
  let m := objects (main host_with_back) in
  In planet_Earth (planets (main host_with_back)) /\
  In moon_of_Earth (p_moons planet_Earth) /\
  children_of m (p_orbitGroup planet_Earth) = [p_planet planet_Earth] /\
  parent_of m (m_group moon_of_Earth) = Some (p_planet planet_Earth) /\
  ~ (forall p, In p (planets (main host_with_back)) ->
       forall mo, In mo (p_moons p) -> owns m (p_orbitGroup p) (m_group mo)).
Proof.
  assert (In planet_Earth (planets (main host_with_back))) as Hp
    by (vm_compute; right; left; reflexivity).
  assert (In moon_of_Earth (p_moons planet_Earth)) as Hm by (left; reflexivity).
  intros m. split; [exact Hp|]. split; [exact Hm|].
  split; [vm_compute; reflexivity|]. split; [vm_compute; reflexivity|].
  intros H. specialize (H planet_Earth Hp moon_of_Earth Hm). destruct H as [H _].
  assert (children_of m (p_orbitGroup planet_Earth) = [11%nat]) as E
    by (vm_compute; reflexivity).
  rewrite E in H. destruct H as [H|[]]. discriminate H.
Qed.

(** C5 at an input where the code departs from it.  After the first frame
    nothing is selected, and the click is on Earth's first moon: the ray
    meets the moon mesh and none of the three planet meshes.  The raycaster
    walks the children of the planet meshes too, so the array it returns
    holds the intersection with the moon mesh, and the click is not the
    no-op the claim describes: the moon mesh is selected, the back element
    is shown and the camera has moved. *)
Theorem click_on_moon_is_not_a_noop :
  let st := run sin_taylor cos_taylor ray_at_moon unit no_gesture
              (main host_with_back) [Frame unit 0 tt] in
  let st' := onClick sin_taylor cos_taylor ray_at_moon 615 352 st in
  planet_meshes st = [7; 11; 17]%nat /\
  map (ray_at_moon (setMouse 615 352 st)) (planet_meshes st) = [[]; []; []] /\
  map object (intersectObjects ray_at_moon (setMouse 615 352 st) (planet_meshes st) true) =
    [13%nat] /\
  focusedPlanet st = None /\
  focusedPlanet st' = Some 13%nat /\
  backButton st = Some (mkHTMLElement "none" true) /\
  backButton st' = Some (mkHTMLElement "block" true) /\
  v_y (camera_position st) == 20 /\
  v_y (camera_position st') == 3.
Proof.
  vm_compute. do 8 (split; [reflexivity|]). reflexivity.
Qed.

(** C10 at an input where the code departs from it.  After the first
    frame nothing is selected and the ray meets only the mesh of Earth's
    first moon.  The click sets the selection to that moon mesh, which is
    none of the three planet meshes and carries no name. *)
Theorem click_on_moon_changes_selection :
  let st := run sin_taylor cos_taylor ray_at_moon unit no_gesture
              (main host_with_back) [Frame unit 0 tt] in
  let st' := onClick sin_taylor cos_taylor ray_at_moon 615 352 st in
  map (name_of (objects st)) (planet_meshes st) =
    [Some "Mercury"; Some "Earth"; Some "Jupiter"]%string /\
  focusedPlanet st = None /\
  map (ray_at_moon (setMouse 615 352 st)) (planet_meshes st) = [[]; []; []] /\
  focusedPlanet st' = Some 13%nat /\
  name_of (objects st') 13 = None /\
  ~ In 13%nat (planet_meshes st').
Proof.
  intros st st'.
  do 5 (split; [vm_compute; reflexivity|]).
  assert (planet_meshes st' = [7; 11; 17]%nat) as E by (vm_compute; reflexivity).
  rewrite E. intros H.
  repeat (destruct H as [H|H]; [discriminate H|]). destruct H.
Qed.

(** The ray of [ray_at_Earth_behind_moon], in any state of a run: the
    raycaster returns the intersection with the moon mesh before the one
    with the Earth mesh, and the click listener takes the first. *)
Lemma moon_in_front_of_Earth st :
  Inv st ->
  let st' := onClick sin_taylor cos_taylor ray_at_Earth_behind_moon 577 288 st in
  name_of (objects st) 11 = Some "Earth"%string /\
  planet_meshes st = [7; 11; 17]%nat /\
  map (ray_at_Earth_behind_moon (setMouse 577 288 st)) (planet_meshes st) =
    [[]; [55.62]; []] /\
  map object (intersectObjects ray_at_Earth_behind_moon (setMouse 577 288 st)
                (planet_meshes st) true) = [13; 11]%nat /\
  focusedPlanet st' = Some 13%nat /\
  name_of (objects st') 13 = None /\
  (forall b, backButton st = Some b ->
     backButton st' = Some (mkHTMLElement "block" true)) /\
  exists worldPos,
    getWorldPosition sin_taylor cos_taylor (objects st) 13 = Some worldPos /\
    camera_position st' = Vector3_add worldPos (mkVector3 5 3 5).
Proof.
  intros HI st'.
  pose proof (Inv_planet_meshes st HI) as Hp.
  pose proof (Inv_moon_meshes st HI) as Hm.
  assert (name_of scene_graph 11 = Some "Earth"%string) as N11
    by (vm_compute; reflexivity).
  assert (name_of scene_graph 13 = None) as N13 by (vm_compute; reflexivity).
  split; [by rewrite (same_graph_name_of _ _ 11 (inv_graph _ HI))|].
  split; [exact Hp|].
  split; [rewrite Hp; reflexivity|].
  split.
  { rewrite intersectObjects_tested.
    pose proof (Inv_tested _ (Inv_setMouse 577 288 st HI)) as Ht.
    change (planet_meshes (setMouse 577 288 st)) with (planet_meshes st) in Ht.
    rewrite Ht. vm_compute. reflexivity. }
  assert (In 13%nat (planet_meshes st ++ moon_meshes st)) as He
    by (rewrite Hp, Hm; in_list).
  destruct (click_on_the_nearest_mesh sin_taylor cos_taylor ray_at_Earth_behind_moon
              577 288 st 13%nat HI He) as (H1 & H2 & H3).
  { exists 54.78. split; [left; reflexivity|].
    rewrite Hp, Hm. intros k d' Hk Hne.
    repeat (destruct Hk as [<-|Hk];
            [try (exfalso; apply Hne; reflexivity);
             first [intros [<-|[]]; reflexivity | intros []]|]).
    destruct Hk. }
  split; [exact H1|].
  split.
  { subst st'. rewrite onClick_objects.
    by rewrite (same_graph_name_of _ _ 13 (inv_graph _ HI)). }
  split; [exact H2|exact H3].
Qed.

(** C3 at an input where the code departs from it.  After 101 frames
    nothing is selected and Earth's first moon is passing in front of
    Earth.  The click is on the screen point where both are drawn: the ray
    meets the mesh named "Earth", and no other planet mesh, but it meets
    the moon mesh first.  The raycaster walks the children of the planet
    meshes too, so the array it returns holds the intersection with the
    moon mesh before the one with Earth: the click selects the moon mesh,
    which carries no name, instead of Earth, and the camera is put at the
    moon's world position plus (5, 3, 5). *)
Theorem click_on_Earth_behind_its_moon :
  let st := run sin_taylor cos_taylor ray_at_Earth_behind_moon unit no_gesture
              (main host_with_back) (frames_of unit (first_frames 101)) in
  let st' := onClick sin_taylor cos_taylor ray_at_Earth_behind_moon 577 288 st in
  name_of (objects st) 11 = Some "Earth"%string /\
  planet_meshes st = [7; 11; 17]%nat /\
  map (ray_at_Earth_behind_moon (setMouse 577 288 st)) (planet_meshes st) =
    [[]; [55.62]; []] /\
  map object (intersectObjects ray_at_Earth_behind_moon (setMouse 577 288 st)
                (planet_meshes st) true) = [13; 11]%nat /\
  focusedPlanet st = None /\
  focusedPlanet st' = Some 13%nat /\
  name_of (objects st') 13 = None /\
  backButton st' = Some (mkHTMLElement "block" true) /\
  exists worldPos,
    getWorldPosition sin_taylor cos_taylor (objects st) 13 = Some worldPos /\
    camera_position st' = Vector3_add worldPos (mkVector3 5 3 5).
Proof.
  intros st st'.
  pose proof (Inv_reachable sin_taylor cos_taylor ray_at_Earth_behind_moon unit
                no_gesture host_with_back (frames_of unit (first_frames 101))) as HI.
  fold st in HI.
  destruct (run_frames_only sin_taylor cos_taylor ray_at_Earth_behind_moon unit
              no_gesture (first_frames 101) (main host_with_back)) as [Hf Hb].
  fold st in Hf, Hb. rewrite main_focusedPlanet in Hf.
  rewrite main_backButton in Hb. cbn [host_backButton host_with_back] in Hb.
  destruct (moon_in_front_of_Earth st HI)
    as (H1 & H2 & H3 & H4 & H5 & H6 & H7 & H8).
  split; [exact H1|]. split; [exact H2|]. split; [exact H3|]. split; [exact H4|].
  split; [exact Hf|]. split; [exact H5|]. split; [exact H6|].
  split; [exact (H7 _ Hb)|exact H8].
Qed.

(** ** The further statements at concrete inputs *)

Lemma wf_heap_with_scene : wf_heap heap_with_scene.
Proof.
  intros k Hk. change (h_next heap_with_scene) with 1%nat in Hk.
  unfold heap_with_scene, new_Object3D. cbn [snd h_objects h_next Heap_empty].
  rewrite lookup_insert_ne by lia. apply lookup_empty.
Qed.

Lemma createPlanet_builds_subtree_witness :
  let r := createPlanet 0 0.7 0x00aaff 14 0.008 "Earth"
             [mkMoonConfig 0.12 1.3 0.03; mkMoonConfig 0.08 1.8 0.02]
             (heap_with_scene, []) in
  wf_heap heap_with_scene /\
  is_Some (h_objects heap_with_scene !! 0%nat) /\
  children_of (h_objects (fst (snd r))) (p_orbitGroup (fst r)) = [p_planet (fst r)] /\
  name_of (h_objects (fst (snd r))) (p_planet (fst r)) = Some "Earth"%string.
Proof.
  intros r.
  assert (is_Some (h_objects heap_with_scene !! 0%nat)) as Hs
    by (vm_compute; eexists; reflexivity).
  split; [exact wf_heap_with_scene|]. split; [exact Hs|].
  destruct (createPlanet_builds_subtree 0 0.7 0x00aaff 14 0.008 "Earth"
              [mkMoonConfig 0.12 1.3 0.03; mkMoonConfig 0.08 1.8 0.02]
              heap_with_scene [] wf_heap_with_scene Hs)
    as (_ & _ & Hc & _ & _ & Hn & _).
  split; [exact Hc|exact Hn].
Defined.

Lemma createPlanet_leaves_the_rest_witness :
  let r := createPlanet 0 0.4 0xffccaa 8 0.012 "Mercury"
             [mkMoonConfig 0.08 0.9 0.04] (heap_with_scene, []) in
  wf_heap heap_with_scene /\
  is_Some (h_objects heap_with_scene !! 0%nat) /\
  wf_heap (fst (snd r)) /\
  h_next (fst (snd r)) = (h_next heap_with_scene + 2 + 2 * 1)%nat.
Proof.
  intros r.
  assert (is_Some (h_objects heap_with_scene !! 0%nat)) as Hs
    by (vm_compute; eexists; reflexivity).
  split; [exact wf_heap_with_scene|]. split; [exact Hs|].
  destruct (createPlanet_leaves_the_rest 0 0.4 0xffccaa 8 0.012 "Mercury"
              [mkMoonConfig 0.08 0.9 0.04] heap_with_scene []
              wf_heap_with_scene Hs)
    as (Hwf & Hn & _).
  split; [exact Hwf|exact Hn].
Defined.

Lemma setMouse_normalised_witness :
  let st := main host_with_back in
  let m := mouse (setMouse 200 150 st) in
  0 < innerWidth st /\ 0 < innerHeight st /\
  0 <= 200 <= innerWidth st /\ 0 <= 150 <= innerHeight st /\
  mouse (onClick sin_taylor cos_taylor ray_at_Earth 200 150 st) = m /\
  -1 <= v2_x m <= 1 /\ -1 <= v2_y m <= 1.
Proof.
  intros st m.
  assert (0 < innerWidth st) as HW by (vm_compute; reflexivity).
  assert (0 < innerHeight st) as HH by (vm_compute; reflexivity).
  assert (0 <= 200 <= innerWidth st) as Hx
    by (vm_compute; split; intros E; discriminate E).
  assert (0 <= 150 <= innerHeight st) as Hy
    by (vm_compute; split; intros E; discriminate E).
  do 4 (split; [assumption|]).
  destruct (setMouse_normalised sin_taylor cos_taylor ray_at_Earth 200 150 st
              HW HH Hx Hy) as (H1 & H2 & H3 & _).
  split; [exact H1|]. split; [exact H2|exact H3].
Defined.

Lemma selection_is_a_live_mesh_witness :
  let st := run sin_taylor cos_taylor ray_at_Earth unit no_gesture
              (main host_with_back) [Click unit 594 347] in
  focusedPlanet st = Some 11%nat /\
  is_Mesh (objects st) 11 = true /\
  exists worldPos, getWorldPosition sin_taylor cos_taylor (objects st) 11 = Some worldPos.
Proof.
  intros st.
  assert (focusedPlanet st = Some 11%nat) as H by (vm_compute; reflexivity).
  split; [exact H|].
  exact (proj2 (selection_is_a_live_mesh sin_taylor cos_taylor ray_at_Earth unit
                  no_gesture host_with_back [Click unit 594 347] 11%nat H)).
Defined.

Lemma back_element_shown_while_focused_witness :
  let st := run sin_taylor cos_taylor ray_at_Earth unit no_gesture
              (main host_with_back) [Click unit 594 347] in
  let b := mkHTMLElement "block" true in
  backButton st = Some b /\
  focusedPlanet st = Some 11%nat /\
  click_listener b = true /\
  style_display b = "block"%string.
Proof.
  intros st b.
  assert (backButton st = Some b) as H by (vm_compute; reflexivity).
  assert (focusedPlanet st = Some 11%nat) as Hf by (vm_compute; reflexivity).
  split; [exact H|]. split; [exact Hf|].
  destruct (back_element_shown_while_focused sin_taylor cos_taylor ray_at_Earth
              unit no_gesture host_with_back [Click unit 594 347] b H) as [H1 H2].
  split; [exact H1|].
  subst st. rewrite Hf in H2. exact H2.
Defined.

Lemma star_field_frame_witness :
  let st := run sin_taylor cos_taylor ray_at_Earth unit no_gesture
              (main host_with_back) [Click unit 594 347] in
  let st' := tick sin_taylor cos_taylor unit no_gesture 100 tt st in
  -1 <= sin_taylor (100 * 0.001 * 3) <= 1 /\
  0.00001 <= 0.0001 * timeScale st' <= 0.0001 /\
  0.06 <= starMaterial_size st' <= 0.08.
Proof.
  intros st st'.
  assert (-1 <= sin_taylor (100 * 0.001 * 3) <= 1) as H
    by (vm_compute; split; intros E; discriminate E).
  split; [exact H|].
  destruct (star_field_frame sin_taylor cos_taylor ray_at_Earth unit no_gesture
              host_with_back [Click unit 594 347] 100 tt H) as (_ & H2 & _ & H4).
  split; [exact H2|exact H4].
Defined.

Lemma orbit_never_stalls_witness :
  let st := run sin_taylor cos_taylor ray_at_Earth unit no_gesture
              (main host_with_back) [Click unit 594 347] in
  let evs' := [Frame unit 0 tt; BackClick unit; Frame unit 16 tt] in
  In planet_Earth (planets st) /\
  exists r r', rotation_of (objects st) (p_orbitGroup planet_Earth) = Some r /\
    rotation_of (objects (run sin_taylor cos_taylor ray_at_Earth unit no_gesture
                            st evs')) (p_orbitGroup planet_Earth) = Some r' /\
    r + 0.1 * p_speed planet_Earth * inject_Z (Z.of_nat (frames unit evs')) <= r' /\
    r' <= r + p_speed planet_Earth * inject_Z (Z.of_nat (frames unit evs')).
Proof.
  intros st evs'.
  assert (In planet_Earth (planets st)) as H by (vm_compute; right; left; reflexivity).
  split; [exact H|].
  exact (proj2 (orbit_never_stalls sin_taylor cos_taylor ray_at_Earth unit no_gesture
                  host_with_back [Click unit 594 347] evs' planet_Earth H)).
Defined.

Lemma planet_moves_on_its_circle_witness :
  let st := run sin_taylor cos_taylor ray_at_Earth unit no_gesture
              (main host_with_back)
              [Frame unit 0 tt; Frame unit 16 tt] in
  cos_taylor 0 == 1 /\ sin_taylor 0 == 0 /\
  In planet_Earth (planets st) /\
  exists theta worldPos,
    rotation_of (objects st) (p_orbitGroup planet_Earth) = Some theta /\
    getWorldPosition sin_taylor cos_taylor (objects st) (p_planet planet_Earth) =
      Some worldPos /\
    v_x worldPos == 14 * cos_taylor theta /\
    v_y worldPos == 0 /\
    v_z worldPos == - (14 * sin_taylor theta).
Proof.
  intros st.
  assert (cos_taylor 0 == 1) as Hc by reflexivity.
  assert (sin_taylor 0 == 0) as Hs by reflexivity.
  assert (In planet_Earth (planets st)) as H by (vm_compute; right; left; reflexivity).
  do 3 (split; [assumption|]).
  destruct (planet_moves_on_its_circle sin_taylor cos_taylor ray_at_Earth unit
              no_gesture host_with_back [Frame unit 0 tt; Frame unit 16 tt]
              planet_Earth Hc Hs H)
    as (theta & d & worldPos & Ht & Hd & Hw & Hx & Hy & Hz & _).
  assert (position_of (objects (main host_with_back))
            (p_planet planet_Earth) = Some (mkVector3 14 0 0)) as Hd'
    by (vm_compute; reflexivity).
  rewrite Hd' in Hd. injection Hd as <-.
  exists theta, worldPos. repeat (split; [assumption|]). assumption.
Defined.

Lemma click_selects_a_nearest_hit_witness :
  let st := run sin_taylor cos_taylor ray_at_Earth unit no_gesture
              (main host_with_back) [Frame unit 0 tt] in
  let st' := onClick sin_taylor cos_taylor ray_at_Earth 594 347 st in
  (exists k d, In k (planet_meshes st ++ moon_meshes st) /\
     In d (ray_at_Earth (setMouse 594 347 st) k)) /\
  exists i worldPos,
    focusedPlanet st' = Some (object i) /\
    In (distance i) (ray_at_Earth (setMouse 594 347 st) (object i)) /\
    getWorldPosition sin_taylor cos_taylor (objects st) (object i) = Some worldPos /\
    camera_position st' = Vector3_add worldPos (mkVector3 5 3 5).
Proof.
  intros st st'.
  assert (exists k d, In k (planet_meshes st ++ moon_meshes st) /\
            In d (ray_at_Earth (setMouse 594 347 st) k)) as H.
  { exists 11%nat, 45.35. split; [vm_compute; right; left; reflexivity|].
    left; reflexivity. }
  split; [exact H|].
  destruct (click_selects_a_nearest_hit sin_taylor cos_taylor ray_at_Earth unit
              no_gesture host_with_back [Frame unit 0 tt] 594 347 H)
    as (i & worldPos & H1 & _ & H3 & _ & H5 & H6 & _).
  exists i, worldPos. split; [exact H1|]. split; [exact H3|].
  split; [exact H5|exact H6].
Defined.

Lemma click_that_misses_only_moves_the_mouse_witness :
  let st := run sin_taylor cos_taylor ray_at_sun unit no_gesture
              (main host_with_back) [Frame unit 0 tt] in
  (forall k, In k (planet_meshes st ++ moon_meshes st) ->
     ray_at_sun (setMouse 400 300 st) k = []) /\
  onClick sin_taylor cos_taylor ray_at_sun 400 300 st = setMouse 400 300 st.
Proof.
  intros st.
  assert (forall k, In k (planet_meshes st ++ moon_meshes st) ->
            ray_at_sun (setMouse 400 300 st) k = []) as H.
  { assert (planet_meshes st ++ moon_meshes st = [7; 11; 17; 9; 13; 15; 19]%nat) as E
      by (vm_compute; reflexivity).
    rewrite E. intros k Hk.
    repeat (destruct Hk as [<-|Hk]; [reflexivity|]). destruct Hk. }
  split; [exact H|].
  exact (click_that_misses_only_moves_the_mouse sin_taylor cos_taylor ray_at_sun unit
           no_gesture host_with_back [Frame unit 0 tt] 400 300 H).
Defined.

Lemma starPositions_filled_witness :
  (0 < starCount)%nat /\
  length (starPositions sin_taylor cos_taylor 3.14 cos_taylor pow_linear random_half) =
    (starCount * 3)%nat /\
  starPositions sin_taylor cos_taylor 3.14 cos_taylor pow_linear random_half !! 2%nat =
    Some (star_radius pow_linear random_half 0 *
          cos_taylor (star_phi cos_taylor random_half 0)).
Proof.
  assert (0 < starCount)%nat as H by (unfold starCount; lia).
  split; [exact H|].
  destruct (starPositions_filled sin_taylor cos_taylor 3.14 cos_taylor pow_linear
              random_half 0 H) as (_ & Hl & _ & _ & Hz).
  split; [exact Hl|exact Hz].
Defined.

Lemma sin_cos_rational a :
  sin_rational a * sin_rational a + cos_rational a * cos_rational a == 1.
Proof.
  unfold sin_rational, cos_rational.
  assert (0 <= a * a) as H by nra. field. lra.
Qed.

Lemma stars_within_radius_100_witness :
  (forall a, sin_rational a * sin_rational a + cos_rational a * cos_rational a == 1) /\
  (forall u, 0 <= u < 1 -> 0 <= pow_linear u 0.9 <= 1) /\
  (forall k, 0 <= random_half k < 1) /\
  (0 < starCount)%nat /\
  exists x y z,
    starPositions sin_rational cos_rational 3.14 cos_taylor pow_linear random_half
      !! 0%nat = Some x /\
    starPositions sin_rational cos_rational 3.14 cos_taylor pow_linear random_half
      !! 1%nat = Some y /\
    starPositions sin_rational cos_rational 3.14 cos_taylor pow_linear random_half
      !! 2%nat = Some z /\
    x * x + y * y + z * z <= 100 * 100.
Proof.
  assert (forall u, 0 <= u < 1 -> 0 <= pow_linear u 0.9 <= 1) as Hp
    by (intros u Hu; unfold pow_linear; lra).
  assert (forall k, 0 <= random_half k < 1) as Hr
    by (intros k; unfold random_half; lra).
  assert (0 < starCount)%nat as Hj by (unfold starCount; lia).
  split; [exact sin_cos_rational|]. split; [exact Hp|]. split; [exact Hr|].
  split; [exact Hj|].
  destruct (stars_within_radius_100 sin_rational cos_rational 3.14 cos_taylor
              pow_linear random_half 0 sin_cos_rational Hp Hr Hj)
    as (x & y & z & Hx & Hy & Hz & _ & _ & Hb).
  exists x, y, z. split; [exact Hx|]. split; [exact Hy|]. split; [exact Hz|exact Hb].
Defined.

Lemma click_on_back_bubbles_witness :
  let st := run sin_taylor cos_taylor ray_toward_594_347 unit no_gesture
              (main host_with_back)
              [Frame unit 0 tt; Click unit 594 347; Frame unit 16 tt] in
  let st1 := step sin_taylor cos_taylor ray_toward_594_347 unit no_gesture
               st (BackClick unit) in
  let st' := run sin_taylor cos_taylor ray_toward_594_347 unit no_gesture
               st (click_on_back unit 40 30) in
  (forall k, In k (planet_meshes st ++ moon_meshes st) ->
     ray_toward_594_347 (setMouse 40 30 st1) k = []) /\
  focusedPlanet st = Some 11%nat /\
  backButton st = Some (mkHTMLElement "block" true) /\
  camera_position st' = camera_position st /\
  focusedPlanet st' = None /\
  backButton st' = Some (mkHTMLElement "none" true) /\
  controls_target st' = mkVector3 0 0 0.
Proof.
  intros st st1 st'.
  assert (forall k, In k (planet_meshes st ++ moon_meshes st) ->
            ray_toward_594_347 (setMouse 40 30 st1) k = []) as Hmiss.
  { assert (planet_meshes st ++ moon_meshes st = [7; 11; 17; 9; 13; 15; 19]%nat) as E
      by (vm_compute; reflexivity).
    rewrite E. intros k Hk.
    repeat (destruct Hk as [<-|Hk]; [vm_compute; reflexivity|]). destruct Hk. }
  assert (focusedPlanet st = Some 11%nat) as Hf by (vm_compute; reflexivity).
  assert (backButton st = Some (mkHTMLElement "block" true)) as Hb
    by (vm_compute; reflexivity).
  split; [exact Hmiss|]. split; [exact Hf|]. split; [exact Hb|].
  destruct (click_on_back_bubbles sin_taylor cos_taylor ray_toward_594_347 unit
              no_gesture host_with_back
              [Frame unit 0 tt; Click unit 594 347; Frame unit 16 tt] 40 30)
    as (_ & _ & _ & _ & Hclear & _).
  destruct (Hclear Hmiss) as (Hc & Hrest).
  destruct (Hrest _ Hb) as (H1 & H2 & H3).
  split; [exact Hc|]. split; [exact H1|]. split; [exact H2|exact H3].
Defined.
